(** * B3 Stocks Dashboard: the return and statistics engine

    A shallow embedding of [src/services.py] and of the "Statistical
    Analyses" block of [src/streamlit_app.py], together with the pandas
    operations those files call.

    Numbers.  The code computes on IEEE-754 doubles.  The embedding keeps
    the special values of that arithmetic (NaN and the two infinities,
    with their propagation rules) and takes the arithmetic on finite
    values to be exact: a finite double is a real number, and no rounding
    error, overflow or negative zero is modelled.

    Sorting.  The source calls [sort_values] without a [kind], and the
    default sort of numpy fixes no order among rows of equal key.  The
    embedding takes the sort as a parameter: a [sort_kind] is any function
    that returns its rows rearranged in ascending order of key, and what
    is proved of the services is proved for every one of them. *)

From Stdlib Require Import String.
From Stdlib Require Import Reals Lra Lia List ZArith Bool Arith.
From Stdlib Require Import Sorting.Sorted Sorting.Permutation.
Import ListNotations.

Local Open Scope R_scope.

(* ================================================================== *)
(** ** Doubles: special values over exact finite arithmetic *)

Module Float.

Inductive fl : Type :=
| NaN
| PInf
| NInf
| Fin (x : R).

Definition isna (a : fl) : bool :=
  match a with NaN => true | _ => false end.

(** [np.isfinite] *)
Definition isfinite (a : fl) : bool :=
  match a with Fin _ => true | _ => false end.

Definition fneg (a : fl) : fl :=
  match a with
  | NaN => NaN
  | PInf => NInf
  | NInf => PInf
  | Fin x => Fin (- x)
  end.

Definition fadd (a b : fl) : fl :=
  match a, b with
  | NaN, _ | _, NaN => NaN
  | PInf, NInf | NInf, PInf => NaN
  | PInf, _ | _, PInf => PInf
  | NInf, _ | _, NInf => NInf
  | Fin x, Fin y => Fin (x + y)
  end.

Definition fsub (a b : fl) : fl := fadd a (fneg b).

(** An infinity of sign [pos] times the finite [x]; also [x / 0] for
    [pos = true], the zero being taken positive. *)
Definition scale_inf (pos : bool) (x : R) : fl :=
  if Req_dec_T x 0 then NaN
  else if Rlt_dec 0 x then (if pos then PInf else NInf)
       else (if pos then NInf else PInf).

Definition fmul (a b : fl) : fl :=
  match a, b with
  | NaN, _ | _, NaN => NaN
  | PInf, PInf | NInf, NInf => PInf
  | PInf, NInf | NInf, PInf => NInf
  | PInf, Fin x | Fin x, PInf => scale_inf true x
  | NInf, Fin x | Fin x, NInf => scale_inf false x
  | Fin x, Fin y => Fin (x * y)
  end.

Definition fdiv (a b : fl) : fl :=
  match a, b with
  | NaN, _ | _, NaN => NaN
  | PInf, PInf | PInf, NInf | NInf, PInf | NInf, NInf => NaN
  | Fin _, PInf | Fin _, NInf => Fin 0
  | PInf, Fin y => if Rlt_dec y 0 then NInf else PInf
  | NInf, Fin y => if Rlt_dec y 0 then PInf else NInf
  | Fin x, Fin y => if Req_dec_T y 0 then scale_inf true x else Fin (x / y)
  end.

Definition fsqrt (a : fl) : fl :=
  match a with
  | NaN | NInf => NaN
  | PInf => PInf
  | Fin x => if Rlt_dec x 0 then NaN else Fin (sqrt x)
  end.

(** [a <= b] on doubles; false as soon as one side is NaN. *)
Definition fleb (a b : fl) : bool :=
  match a, b with
  | NaN, _ | _, NaN => false
  | NInf, _ | _, PInf => true
  | Fin x, Fin y => if Rle_dec x y then true else false
  | _, _ => false
  end.

(** [a < b] on doubles. *)
Definition fltb (a b : fl) : bool :=
  match a, b with
  | NaN, _ | _, NaN => false
  | PInf, _ | _, NInf => false
  | Fin x, Fin y => if Rlt_dec x y then true else false
  | _, _ => true
  end.

(** The same double: equal numbers, or the same special value. *)
Definition fl_eqb (a b : fl) : bool :=
  match a, b with
  | NaN, NaN | PInf, PInf | NInf, NInf => true
  | Fin x, Fin y => if Req_dec_T x y then true else false
  | _, _ => false
  end.

(** [np.rint]: the nearest integer, a tie going to the even one. *)
Definition rint (x : R) : Z :=
  let n := Int_part x in
  let f := x - IZR n in
  if Rlt_dec f (1 / 2) then n
  else if Rlt_dec (1 / 2) f then (n + 1)%Z
       else if Z.even n then n else (n + 1)%Z.

(** [np.round(a, 2)]: multiply by [10 ** 2], [rint], divide. *)
Definition round2 (a : fl) : fl :=
  match a with
  | Fin x => Fin (IZR (rint (x * 100)) / 100)
  | _ => a
  end.

End Float.
Export Float.

(* ================================================================== *)
(** ** The pandas operations the services call

    Each definition follows the documented behaviour of the pandas
    method of the same name with the arguments the source passes (the
    defaults where it passes none). *)

Module Pandas.

Definition Series := list fl.
Definition Date := Z.

(** A frame: one date index shared by the columns, the columns in
    insertion order. *)
Record DataFrame : Type := mkDataFrame {
  index : list Date;
  columns : list (string * Series)
}.

(** A [Series] indexed by labels, as a reduction of a frame returns. *)
Definition Labelled := list (string * fl).

(** [pd.DataFrame()] *)
Definition empty_frame : DataFrame := mkDataFrame [] [].

(** [df[name]]; [None] stands for the [KeyError]. *)
Fixpoint lookup_column (name : string) (cols : list (string * Series))
  : option Series :=
  match cols with
  | [] => None
  | (n, s) :: cols' =>
      if String.eqb n name then Some s else lookup_column name cols'
  end.

Definition getitem (df : DataFrame) (name : string) : option Series :=
  lookup_column name (columns df).

Definition apply_columns (f : Series -> Series) (df : DataFrame) : DataFrame :=
  mkDataFrame (index df) (map (fun c => (fst c, f (snd c))) (columns df)).

Definition reduce_columns (f : Series -> fl) (df : DataFrame) : Labelled :=
  map (fun c => (fst c, f (snd c))) (columns df).

Definition map_values (f : fl -> fl) (s : Labelled) : Labelled :=
  map (fun r => (fst r, f (snd r))) s.

(** *** Element-wise operations *)

(** [s.shift(1)] *)
Definition shift (s : Series) : Series :=
  match s with
  | [] => []
  | _ => NaN :: removelast s
  end.

(** [s.ffill()]: a missing value takes the last value seen before it. *)
Fixpoint ffill_from (last : fl) (s : Series) : Series :=
  match s with
  | [] => []
  | x :: s' =>
      let v := if isna x then last else x in
      v :: ffill_from v s'
  end.

Definition ffill (s : Series) : Series := ffill_from NaN s.

(** The [fill_method] that [pct_change()] applies when called without
    arguments: [pad] up to pandas 2, none from pandas 3. *)
Inductive fill_method : Type := pad | no_fill.

(** [s.pct_change()]: [data / data.shift(1) - 1]. *)
Definition pct_change (fm : fill_method) (s : Series) : Series :=
  let data := match fm with pad => ffill s | no_fill => s end in
  map (fun p => fsub (fdiv (fst p) (snd p)) (Fin 1)) (combine data (shift data)).

(** [s.fillna(v)] *)
Definition fillna (v : fl) (s : Series) : Series :=
  map (fun x => if isna x then v else x) s.

(** [c + s], [s - c], [s * c] for a scalar [c] *)
Definition radd (c : fl) (s : Series) : Series := map (fun x => fadd c x) s.
Definition sub_scalar (s : Series) (c : fl) : Series := map (fun x => fsub x c) s.
Definition mul_scalar (s : Series) (c : fl) : Series := map (fun x => fmul x c) s.

(** [s.round(2)] *)
Definition round (s : Series) : Series := map round2 s.

(** *** Reductions (all with [skipna=True]) *)

Definition notna (x : fl) : bool := negb (isna x).

Definition count (s : Series) : nat := length (filter notna s).

(** [s.prod()]: missing values count as 1; the empty product is 1. *)
Definition prod (s : Series) : fl :=
  fold_left fmul (fillna (Fin 1) s) (Fin 1).

(** [s.sum()]: missing values count as 0. *)
Definition sum (s : Series) : fl :=
  fold_left fadd (fillna (Fin 0) s) (Fin 0).

(** [s.mean()] *)
Definition mean (s : Series) : fl :=
  match count s with
  | O => NaN
  | n => fdiv (sum s) (Fin (INR n))
  end.

(** [s.var()], [ddof = 1]: NaN unless more than [ddof] values are
    present; else the squared deviations from the average, summed and
    divided by [count - ddof]. *)
Definition var (s : Series) : fl :=
  let n := count s in
  if (n <=? 1)%nat then NaN
  else
    let avg := fdiv (sum s) (Fin (INR n)) in
    let sqr := map (fun x => if isna x then Fin 0
                             else fmul (fsub avg x) (fsub avg x)) s in
    fdiv (fold_left fadd sqr (Fin 0)) (Fin (INR n - 1)).

(** [s.std()] *)
Definition std (s : Series) : fl := fsqrt (var s).

(** [s.max()], [s.min()] *)
Definition max (s : Series) : fl :=
  match filter notna s with
  | [] => NaN
  | x :: l => fold_left (fun m y => if fltb m y then y else m) l x
  end.

Definition min (s : Series) : fl :=
  match filter notna s with
  | [] => NaN
  | x :: l => fold_left (fun m y => if fltb y m then y else m) l x
  end.

(** [s.cumprod()]: the running product, missing values counting as 1
    and staying missing in the result. *)
Fixpoint accumulate (acc : fl) (s : Series) : Series :=
  match s with
  | [] => []
  | x :: s' => let a := fmul acc x in a :: accumulate a s'
  end.

Definition cumprod (s : Series) : Series :=
  map (fun p => if isna (fst p) then NaN else snd p)
      (combine s (accumulate (Fin 1) (fillna (Fin 1) s))).

(** *** Sorting *)

Section Sort.
Context {A : Type} (key : A -> fl).

(** [argsort()] on rows without missing keys.  The source passes no
    [kind], so the rows are sorted by the default sort of the installed
    numpy, a quicksort that is not stable: it returns the rows rearranged
    in ascending order of key, and the order in which rows of equal key
    come out is its own.  A [sort_kind] is any sort that does this; the
    services take it as they take the default fill of [pct_change]. *)
Record sort_kind : Type := mk_sort_kind {
  argsort : list A -> list A;
  argsort_permutes : forall l, Permutation (argsort l) l;
  argsort_ascends : forall l,
    Forall (fun r => notna (key r) = true) l ->
    Sorted (fun a b => fleb (key a) (key b) = true) (argsort l)
}.

(** [sort_values(ascending=False)], [na_position='last']: the rows
    with a key are reversed, sorted ascending and reversed again; the
    rows with a missing key follow in their original order. *)
Definition sort_values_desc (kind : sort_kind) (rows : list A) : list A :=
  rev (argsort kind (rev (filter (fun r => notna (key r)) rows)))
  ++ filter (fun r => isna (key r)) rows.

(** The sort by insertion, in which a row goes in front of the first
    row that is not smaller, so that rows of equal key keep their order:
    what [kind='stable'] would give. *)
Fixpoint insert (x : A) (l : list A) : list A :=
  match l with
  | [] => [x]
  | y :: l' => if fleb (key x) (key y) then x :: y :: l' else y :: insert x l'
  end.

Fixpoint insertion_sort (l : list A) : list A :=
  match l with
  | [] => []
  | x :: l' => insert x (insertion_sort l')
  end.

(** It is one of the kinds. *)
Definition stable : sort_kind.
Proof.
  refine (mk_sort_kind insertion_sort _ _).
  - abstract
      (assert (Hins : forall x l, Permutation (insert x l) (x :: l))
         by (intros x l; induction l as [| y l IH]; simpl; [reflexivity |];
             destruct (fleb (key x) (key y)); [reflexivity |];
             rewrite IH; apply perm_swap);
       intros l; induction l as [| x l IH]; simpl; [reflexivity |];
       rewrite Hins; now constructor).
  - abstract
      (assert (Hins : forall x l, Permutation (insert x l) (x :: l))
         by (intros x l; induction l as [| y l IH]; simpl; [reflexivity |];
             destruct (fleb (key x) (key y)); [reflexivity |];
             rewrite IH; apply perm_swap);
       assert (Hperm : forall l, Permutation (insertion_sort l) l)
         by (intros l; induction l as [| x l IH]; simpl; [reflexivity |];
             rewrite Hins; now constructor);
       assert (Htotal : forall a b, notna a = true -> notna b = true ->
                          fleb a b = false -> fleb b a = true)
         by (intros [| | | x] [| | | y]; simpl; intros Ha Hb H;
             try discriminate; try reflexivity;
             destruct (Rle_dec x y), (Rle_dec y x);
             try discriminate; try reflexivity; lra);
       assert (Hsorted : forall x l, notna (key x) = true ->
                 Forall (fun r => notna (key r) = true) l ->
                 Sorted (fun a b => fleb (key a) (key b) = true) l ->
                 Sorted (fun a b => fleb (key a) (key b) = true) (insert x l))
         by (intros x l Hx Hall Hs; induction Hs as [| y l Hs IH Hhd]; simpl;
             [repeat constructor |];
             destruct (fleb (key x) (key y)) eqn:E;
             [constructor; [now constructor | now constructor] |];
             inversion Hall; subst; constructor; [now apply IH |];
             destruct l as [| z l]; simpl;
             [constructor; now apply Htotal |];
             destruct (fleb (key x) (key z)); constructor;
             [now apply Htotal | now inversion Hhd]);
       intros l; induction l as [| x l IH]; intros Hall; simpl; [constructor |];
       inversion Hall; subst; apply Hsorted; [assumption | | now apply IH];
       eapply Permutation_Forall; [symmetry; apply Hperm | assumption]).
Defined.
End Sort.

Arguments sort_kind {A} key.
Arguments argsort {A key} _ _.
Arguments argsort_permutes {A key} _ _.
Arguments argsort_ascends {A key} _ _ _.
Arguments sort_values_desc {A key} kind rows.
Arguments stable {A} key.

(** [s.median()]: the middle value of the sorted present values, the
    mean of the two middle ones when their number is even.  Only the
    values count here, and every sort puts them in the same sequence. *)
Definition median (s : Series) : fl :=
  let v := insertion_sort (fun x => x) (filter notna s) in
  let n := length v in
  match n with
  | O => NaN
  | _ =>
      if Nat.odd n then nth (n / 2) v NaN
      else fdiv (fadd (nth (n / 2 - 1) v NaN) (nth (n / 2) v NaN)) (Fin 2)
  end.

(** *** Correlation *)

Definition real_of (a : fl) : R :=
  match a with Fin x => x | _ => 0 end.

Definition Rsum (l : list R) : R := fold_right Rplus 0 l.

Definition Rmean (l : list R) : R := Rsum l / INR (length l).

(** Sum of the products of the deviations of [xs] and [ys] from their
    means. *)
Definition codev (xs ys : list R) : R :=
  Rsum (map (fun p => (fst p - Rmean xs) * (snd p - Rmean ys)) (combine xs ys)).

(** Pearson correlation of two columns over the rows where both values
    are finite ([min_periods = 1]); NaN where the divisor is zero. *)
Definition pearson (x y : Series) : fl :=
  let obs := filter (fun p => isfinite (fst p) && isfinite (snd p)) (combine x y) in
  let xs := map (fun p => real_of (fst p)) obs in
  let ys := map (fun p => real_of (snd p)) obs in
  if (length obs <? 1)%nat then NaN
  else
    let divisor := sqrt (codev xs xs * codev ys ys) in
    if Req_dec_T divisor 0 then NaN
    else Fin (codev xs ys / divisor).

(** [df.corr()]: one computation per unordered pair of columns, stored
    at both positions. *)
Definition corr_entry (cols : list (string * Series)) (i j : nat) : fl :=
  let col k := snd (nth k cols (EmptyString, [])) in
  if (j <=? i)%nat then pearson (col i) (col j) else pearson (col j) (col i).

Definition corr (df : DataFrame) : list (string * list fl) :=
  let cols := columns df in
  map (fun i => (fst (nth i cols (EmptyString, [])),
                 map (fun j => corr_entry cols i j) (seq 0 (length cols))))
      (seq 0 (length cols)).

(** *** Column assignment *)

(** A series with its own date index, as [history(...)['Close']] is. *)
Definition IndexedSeries := list (Date * fl).

Fixpoint at_date (d : Date) (s : IndexedSeries) : fl :=
  match s with
  | [] => NaN
  | (d', v) :: s' => if Z.eqb d' d then v else at_date d s'
  end.

Fixpoint assign (name : string) (v : Series) (cols : list (string * Series))
  : list (string * Series) :=
  match cols with
  | [] => [(name, v)]
  | (n, s) :: cols' =>
      if String.eqb n name then (n, v) :: cols' else (n, s) :: assign name v cols'
  end.

(** [df[name] = s]: a frame whose index is empty takes the index of a
    non-empty [s]; then [s] is aligned on the index of the frame (a date
    it lacks gives NaN, a date the frame lacks is dropped) and stored
    under [name], replacing a column of that name or coming last. *)
Definition setitem (df : DataFrame) (name : string) (s : IndexedSeries)
  : DataFrame :=
  let df1 :=
    match index df, s with
    | [], _ :: _ =>
        mkDataFrame (map fst s)
          (map (fun c => (fst c, repeat NaN (length s))) (columns df))
    | _, _ => df
    end in
  mkDataFrame (index df1)
    (assign name (map (fun d => at_date d s) (index df1)) (columns df1)).

End Pandas.
Export Pandas.

(* ================================================================== *)
(** ** [src/services.py] *)

Module Services.

Local Open Scope string_scope.

(** The dictionary [statistics_historical_data] returns. *)
Record StatBundle : Type := mkStatBundle {
  Volatility : fl;
  Cumulative_Return : fl;
  High_Price : fl;
  Low_Price : fl;
  Median_Price : fl;
  Mean_Price : fl;
  Standard_Deviation : fl;
  Coefficient_Variation : fl
}.

Section Environment.

(** The default fill of [pct_change()] in the installed pandas. *)
Variable fm : fill_method.

(** [yf.Ticker(ticker).history(period=period)['Close']]; [None] when
    the fetch or the column access raises. *)
Variable history_close : string -> string -> option IndexedSeries.

Definition df_stocks_close (period : string) (stocks_list : list string)
  : option DataFrame :=
  fold_left
    (fun acc ticker =>
       match acc with
       | None => None
       | Some df_close_prices =>
           match history_close ticker period with
           | None => None
           | Some close => Some (setitem df_close_prices ticker close)
           end
       end)
    stocks_list (Some empty_frame).

Definition statistics_historical_data (df_stock : DataFrame)
  : option StatBundle :=
  match getitem df_stock "Close", getitem df_stock "High",
        getitem df_stock "Low" with
  | Some close, Some high, Some low =>
      let returns := fillna (Fin 0) (pct_change fm close) in
      let volatility :=
        fmul (fmul (std returns) (Fin (Rpower 252 0.5))) (Fin 100) in
      let cumulative_return :=
        fmul (fsub (prod (radd (Fin 1) returns)) (Fin 1)) (Fin 100) in
      let median_price := median close in
      let mean_price := mean close in
      let standard_deviation_price := std close in
      let coefficient_variation_price :=
        fmul (fdiv standard_deviation_price mean_price) (Fin 100) in
      let high_price := max high in
      let low_price := min low in
      Some {| Volatility := volatility;
              Cumulative_Return := cumulative_return;
              High_Price := high_price;
              Low_Price := low_price;
              Median_Price := median_price;
              Mean_Price := mean_price;
              Standard_Deviation := standard_deviation_price;
              Coefficient_Variation := coefficient_variation_price |}
  | _, _, _ => None
  end.

Definition df_returns (df_close_prices : DataFrame) : DataFrame :=
  apply_columns (fillna (Fin 0)) (apply_columns (pct_change fm) df_close_prices).

End Environment.

(** The cumulative return of each column, before sorting and rounding
    (line 190). *)
Definition cumulative_returns (df_close_returns : DataFrame) : Labelled :=
  map_values (fun v => fmul (fsub v (Fin 1)) (Fin 100))
    (reduce_columns prod (apply_columns (radd (Fin 1)) df_close_returns)).

Section Rankings.

(** The sort that [sort_values] runs in the installed numpy. *)
Variable kind : sort_kind (@snd string fl).

Definition df_stocks_returns_ranking (df_close_returns : DataFrame) : Labelled :=
  map_values round2 (sort_values_desc kind (cumulative_returns df_close_returns)).

Definition df_stocks_returns_period (df_close_returns : DataFrame) : DataFrame :=
  apply_columns round
    (apply_columns (fun s => mul_scalar s (Fin 100))
       (apply_columns (fun s => sub_scalar s (Fin 1))
          (apply_columns cumprod
             (apply_columns (radd (Fin 1)) df_close_returns)))).

Definition df_annualized_volatility (df_close_returns : DataFrame) : Labelled :=
  sort_values_desc kind
    (map_values round2
       (map_values (fun v => fmul (fmul v (Fin (Rpower 252 0.5))) (Fin 100))
          (reduce_columns std df_close_returns))).

(** [a / b] on two reductions of the same frame: same labels, so the
    division is position by position. *)
Definition div_labelled (a b : Labelled) : Labelled :=
  map (fun p => (fst (fst p), fdiv (snd (fst p)) (snd (snd p)))) (combine a b).

Definition df_coefficient_variation (df_close_prices : DataFrame) : Labelled :=
  sort_values_desc kind
    (map_values round2
       (map_values (fun v => fmul v (Fin 100))
          (div_labelled (reduce_columns std df_close_prices)
                        (reduce_columns mean df_close_prices)))).

End Rankings.

End Services.
Export Services.

(* ================================================================== *)
(** ** [src/streamlit_app.py]: the "Statistical Analyses" block of [main] *)

Module App.

Local Open Scope string_scope.

(** What a run does, in order: the engine functions it calls and the
    widgets it draws. *)
Inductive event : Type :=
| Call (f : string)
| Warning (msg : string)
| Stop
| LineChart (data : DataFrame)
| Heatmap (data : list (string * list fl))
| BarChart (y : string) (data : Labelled).

(** A script: the events so far and the value it goes on with; [None]
    once the run has ended ([st.stop()] or an exception). *)
Definition Script (A : Type) : Type := (list event * option A)%type.

Definition ret {A} (a : A) : Script A := ([], Some a).

Definition bind {A B} (m : Script A) (f : A -> Script B) : Script B :=
  match m with
  | (l, Some a) => let (l', r) := f a in ((l ++ l')%list, r)
  | (l, None) => (l, None)
  end.

Notation "x <- m ;; k" := (bind m (fun x => k))
  (at level 61, m at next level, right associativity).
Notation "m ;;; k" := (bind m (fun _ => k))
  (at level 61, right associativity).

Definition call {A} (f : string) (v : A) : Script A := ([Call f], Some v).
Definition call_raising {A} (f : string) (v : option A) : Script A := ([Call f], v).
Definition emit (e : event) : Script unit := ([e], Some tt).
Definition stop {A} : Script A := ([Stop], None).

Section Main.
Variable kind : sort_kind (@snd string fl).
Variable fm : fill_method.
Variable history_close : string -> string -> option IndexedSeries.

(** Lines 127-186, for the selections [stocks_period] and
    [stocks_list] of the two widgets. *)
Definition main (stocks_period : string) (stocks_list : list string)
  : Script unit :=
  df_close_prices <-
    call_raising "df_stocks_close"
      (df_stocks_close history_close stocks_period stocks_list) ;;
  df_close_returns <- call "df_returns" (df_returns fm df_close_prices) ;;
  df_returns_period <-
    call "df_stocks_returns_period" (df_stocks_returns_period df_close_returns) ;;
  df_cumulative_returns <-
    call "df_stocks_returns_ranking" (df_stocks_returns_ranking kind df_close_returns) ;;
  corr_matrix <- call "corr" (corr df_close_returns) ;;
  annualized_volatility <-
    call "df_annualized_volatility" (df_annualized_volatility kind df_close_returns) ;;
  coefficient_variation <-
    call "df_coefficient_variation" (df_coefficient_variation kind df_close_prices) ;;
  (if (match stocks_list with [] => true | _ => false end
       || (length stocks_list =? 1)%nat)%bool
   then emit (Warning "Please, select at least two stocks for analysis.") ;;; stop
   else ret tt) ;;;
  emit (LineChart df_returns_period) ;;;
  emit (Heatmap corr_matrix) ;;;
  emit (BarChart "Cumulative Return" df_cumulative_returns) ;;;
  emit (BarChart "Annualized Volatility" annualized_volatility) ;;;
  emit (BarChart "Coefficient Variation" coefficient_variation).

End Main.

End App.
Export App.

(* ================================================================== *)
(** ** Statements of the specification *)

Module Spec.

Local Open Scope string_scope.

(** The multi-ticker functions of the engine, by the name [main] calls
    them under; ["corr"] is the correlation computation. *)
Definition multi_ticker_functions : list string :=
  ["df_returns"; "df_stocks_returns_ranking"; "df_stocks_returns_period";
   "df_annualized_volatility"; "df_coefficient_variation"; "corr"].

Definition is_render (e : event) : bool :=
  match e with
  | LineChart _ | Heatmap _ | BarChart _ _ => true
  | _ => false
  end.

(** The run neither calls a multi-ticker function nor draws a result. *)
Definition short_circuits (run : Script unit) : Prop :=
  (forall f, In f multi_ticker_functions -> ~ In (Call f) (fst run))
  /\ forallb (fun e => negb (is_render e)) (fst run) = true.

(** The events of a run that computes everything and then stops on the
    warning. *)
Definition computed_then_stopped : list event :=
  [Call "df_stocks_close"; Call "df_returns"; Call "df_stocks_returns_period";
   Call "df_stocks_returns_ranking"; Call "corr";
   Call "df_annualized_volatility"; Call "df_coefficient_variation";
   Warning "Please, select at least two stocks for analysis."; Stop].

(** The table has fewer than two bars and the statistics are the ones
    the specification gives for it. *)
Definition short_table_policy (fm : fill_method) (df_stock : DataFrame) : Prop :=
  forall close stats,
    getitem df_stock "Close" = Some close ->
    (length close < 2)%nat ->
    statistics_historical_data fm df_stock = Some stats ->
    Volatility stats = Fin 0 /\ Cumulative_Return stats = Fin 0.

(** A price table of one bar, all of whose prices are [c]. *)
Definition one_bar (c : fl) : DataFrame :=
  mkDataFrame [1%Z]
    [("Open", [c]); ("High", [c]); ("Low", [c]); ("Close", [c]);
     ("Volume", [Fin 1000])].

(** The return series of one price column: [pct_change().fillna(0)]. *)
Definition return_series (fm : fill_method) (price : Series) : Series :=
  fillna (Fin 0) (pct_change fm price).

(** [r[0] = 0] and [r[i] = price[i] / price[i-1] - 1] from the second
    row on, in the arithmetic of the code. *)
Definition returns_formula (fm : fill_method) (price : Series) : Prop :=
  let r := return_series fm price in
  nth 0 r NaN = Fin 0
  /\ forall i, (1 <= i < length price)%nat ->
       nth i r NaN = fsub (fdiv (nth i price NaN) (nth (i - 1) price NaN)) (Fin 1).

Definition Rprod (l : list R) : R := fold_right Rmult 1 l.

(** The product of [1 + r] over the series, minus 1, times 100. *)
Definition compounded (rs : list R) : R :=
  (Rprod (map (fun r => 1 + r) rs) - 1) * 100.

(** Two consecutive values of a descending table: the second one is not
    larger, or it is missing (missing values come last). *)
Definition desc (a b : fl) : Prop := isna b = true \/ fleb b a = true.

(** A price table of three bars closing at 100, 110 and 99. *)
Definition example_table : DataFrame :=
  mkDataFrame [1; 2; 3]%Z
    [("Open", [Fin 100; Fin 104; Fin 109]);
     ("High", [Fin 101; Fin 111; Fin 110]);
     ("Low", [Fin 99; Fin 103; Fin 98]);
     ("Close", [Fin 100; Fin 110; Fin 99]);
     ("Volume", [Fin 1000; Fin 1200; Fin 900])].

(** The column of [df_stocks_returns_period] computed from one column of
    returns. *)
Definition period_column (col : Series) : Series :=
  round (mul_scalar (sub_scalar (cumprod (radd (Fin 1) col)) (Fin 1)) (Fin 100)).

(** Ascending by key, on rows that all have one. *)
Definition asc {A : Type} (key : A -> fl) (a b : A) : Prop :=
  fleb (key a) (key b) = true.

(** The sample standard deviation: the squared deviations from the mean,
    summed, divided by [n - 1], under the square root. *)
Definition sample_var (xs : list R) : R :=
  Rsum (map (fun x => (x - Rmean xs) ^ 2) xs) / (INR (length xs) - 1).

Definition sample_std (xs : list R) : R := sqrt (sample_var xs).

(** A frame of returns with the one column 0, 0.10, -0.10. *)
Definition example_returns_frame : DataFrame :=
  mkDataFrame [1; 2; 3]%Z [("PETR4.SA", [Fin 0; Fin 0.10; Fin (-0.10)])].

(** Entry [(i, j)] of a labelled matrix. *)
Definition entry (m : list (string * list fl)) (i j : nat) : fl :=
  nth j (snd (nth i m (EmptyString, []))) NaN.

(** Two tickers with the same return series have correlation 1. *)
Definition identical_series_correlate (df : DataFrame) : Prop :=
  forall i j ti tj s,
    nth_error (columns df) i = Some (ti, s) ->
    nth_error (columns df) j = Some (tj, s) ->
    entry (corr df) i j = Fin 1.

(** Two tickers whose prices did not move over three days. *)
Definition flat_returns_frame : DataFrame :=
  mkDataFrame [1; 2; 3]%Z
    [("PETR4.SA", [Fin 0; Fin 0; Fin 0]); ("VALE3.SA", [Fin 0; Fin 0; Fin 0])].

(** Two tickers, the returns of the second the opposite of those of the
    first. *)
Definition inverse_returns_frame : DataFrame :=
  mkDataFrame [1; 2; 3]%Z
    [("PETR4.SA", map Fin [0; 0.10; -0.10]);
     ("VALE3.SA", map Fin (map Ropp [0; 0.10; -0.10]))].

(** [x] comes before [y] in [l]. *)
Definition precedes {A : Type} (x y : A) (l : list A) : Prop :=
  exists l1 l2 l3, l = (l1 ++ x :: l2 ++ y :: l3)%list.

(** Two rows of equal value come in the order of their columns. *)
Definition ties_keep_column_order (df : DataFrame) (rows : Labelled) : Prop :=
  forall a b v,
    precedes (a, v) (b, v) rows -> precedes a b (map fst (columns df)).

(** The rows are in descending order of value, ties in column order. *)
Definition sorted_stable_ranking (ranking : DataFrame -> Labelled)
  (df : DataFrame) : Prop :=
  Sorted desc (map snd (ranking df)) /\ ties_keep_column_order df (ranking df).

(** Two tickers over two days, gaining 0.001 and 0.004 percent. *)
Definition tie_frame : DataFrame :=
  mkDataFrame [1; 2]%Z
    [("PETR4.SA", map Fin [0; 0.00001]); ("VALE3.SA", map Fin [0; 0.00004])].

(** A table of closes whose mean is zero, and a price table with these
    closes. *)
Definition zero_mean_frame : DataFrame :=
  mkDataFrame [1; 2]%Z [("PETR4.SA", map Fin [-1; 1])].

Definition zero_mean_table : DataFrame :=
  mkDataFrame [1; 2]%Z
    [("High", map Fin [-1; 1]); ("Low", map Fin [-1; 1]); ("Close", map Fin [-1; 1])].

(** The labels and the lengths of the columns of a frame. *)
Definition shape (df : DataFrame) : list Date * list (string * nat) :=
  (index df, map (fun c => (fst c, length (snd c))) (columns df)).

(** The tickers of the rows of value [v], in the order of the rows. *)
Definition tickers_valued (v : fl) (rows : Labelled) : list string :=
  map fst (filter (fun r => fl_eqb (snd r) v) rows).

(** The volatility and the coefficient of variation of each column, in
    column order, as they are rounded and before they are sorted. *)
Definition volatility_rows (df : DataFrame) : Labelled :=
  map_values round2
    (map_values (fun v => fmul (fmul v (Fin (Rpower 252 0.5))) (Fin 100))
       (reduce_columns std df)).

Definition variation_rows (df : DataFrame) : Labelled :=
  map_values round2
    (map_values (fun v => fmul v (Fin 100))
       (div_labelled (reduce_columns std df) (reduce_columns mean df))).

End Spec.
Export Spec.

(* ================================================================== *)
(** ** Python values

    The strings and the numbers of the quote that [yfinance] returns, with
    the operations of Python the source applies to them. *)

Module Python.

(** A string is the list of its characters, each by its code point. *)
Definition str := list N.

(** An ASCII literal as a string. *)
Definition of_string (s : string) : str :=
  map Ascii.N_of_ascii (String.list_ascii_of_string s).

(** [c.isspace()]: the white space of Unicode. *)
Definition isspace (c : N) : bool :=
  (((9 <=? c) && (c <=? 13)) || ((28 <=? c) && (c <=? 32)) || (c =? 133)
   || (c =? 160) || (c =? 5760) || ((8192 <=? c) && (c <=? 8202))
   || (c =? 8232) || (c =? 8233) || (c =? 8239) || (c =? 8287)
   || (c =? 12288))%N.

Fixpoint lstrip (s : str) : str :=
  match s with
  | [] => []
  | c :: s' => if isspace c then lstrip s' else s
  end.

Definition rstrip (s : str) : str := rev (lstrip (rev s)).

(** [s.strip()] *)
Definition strip (s : str) : str := rstrip (lstrip s).

(** [s.split(sep)] for a separator [sep] of the two characters [c1] and
    [c2]: the pieces between its occurrences, found from the left;
    [piece] is the piece being read, its last character first. *)
Fixpoint split2 (c1 c2 : N) (piece : str) (s : str) : list str :=
  match s with
  | [] => [rev piece]
  | a :: s' =>
      match s' with
      | [] => [rev (a :: piece)]
      | b :: s'' =>
          if ((a =? c1) && (b =? c2))%N then rev piece :: split2 c1 c2 [] s''
          else split2 c1 c2 (a :: piece) s'
      end
  end.

Definition split (c1 c2 : N) (s : str) : list str := split2 c1 c2 [] s.

(** [sep.join(pieces)] *)
Fixpoint join (sep : str) (pieces : list str) : str :=
  match pieces with
  | [] => []
  | x :: pieces' =>
      match pieces' with
      | [] => x
      | _ => x ++ sep ++ join sep pieces'
      end
  end.

(** The values of the dictionaries of a quote. *)
Inductive value : Type :=
| PyFloat (x : fl)
| PyStr (s : str)
| PyNone.

Inductive exn : Type :=
| KeyError (key : string)
| TypeError
| ZeroDivisionError
| AttributeError.

Inductive result (A : Type) : Type :=
| Ok (a : A)
| Raise (e : exn).

Arguments Ok {A} a.
Arguments Raise {A} e.

Definition and_then {A B} (r : result A) (f : A -> result B) : result B :=
  match r with
  | Ok a => f a
  | Raise e => Raise e
  end.

Definition dict := list (string * value).

(** [d[key]] *)
Fixpoint dict_get (d : dict) (key : string) : result value :=
  match d with
  | [] => Raise (KeyError key)
  | (k, v) :: d' => if String.eqb k key then Ok v else dict_get d' key
  end.

(** [round(v, 2)]: a number is rounded as [np.round] rounds it, a string
    or [None] is a [TypeError]. *)
Definition py_round2 (v : value) : result fl :=
  match v with
  | PyFloat x => Ok (round2 x)
  | _ => Raise TypeError
  end.

(** [a / b] on two floats of Python: a zero divisor raises. *)
Definition py_div (a b : fl) : result fl :=
  match b with
  | Fin y => if Req_dec_T y 0 then Raise ZeroDivisionError else Ok (fdiv a b)
  | _ => Ok (fdiv a b)
  end.

End Python.
Export Python.

(* ================================================================== *)
(** ** [src/services.py]: the two loaders of one ticker *)

Module Quotes.

Local Open Scope string_scope.

Notation "x <-- r ;; k" := (and_then r (fun x => k))
  (at level 61, r at next level, right associativity).

(** The dictionary [load_ticker_info_today] returns. *)
Record TickerInfo : Type := mkTickerInfo {
  Last_Price : fl;
  Previous_Close : fl;
  Pct_Today : fl;
  Open_Price : fl;
  Day_High : fl;
  Day_Low : fl;
  Long_Name : value;
  Summary : value;
  Web_Site : value;
  Sector : value;
  Industry : value
}.

(** [.dt.date]: the day of a time given in seconds. *)
Definition dt_date (seconds : Z) : Date := (seconds / 86400)%Z.

Section Ticker.

(** [yf.Ticker(stock).history(period=period)], its index the times of the
    bars in seconds; [None] when the fetch raises. *)
Variable history : string -> string -> option DataFrame.

(** [yf.Ticker(stock).fast_info] and [yf.Ticker(stock).info]; their
    numbers are floats of Python. *)
Variable fast_info : string -> dict.
Variable info : string -> dict.

(** [reset_index()] turns the index into the column [Date], which the
    record keeps in its index; [round(2)] rounds the numbers; the times
    of [Date] are then cut to their day. *)
Definition load_ticker_history (stock_selected period : string)
  : option DataFrame :=
  match history stock_selected period with
  | None => None
  | Some df_stock =>
      let df_stock := apply_columns round df_stock in
      Some (mkDataFrame (map dt_date (index df_stock)) (columns df_stock))
  end.

Definition load_ticker_info_today (stock_selected : string) : result TickerInfo :=
  v <-- dict_get (fast_info stock_selected) "lastPrice" ;;
  last_price <-- py_round2 v ;;
  v <-- dict_get (info stock_selected) "previousClose" ;;
  previous_close <-- py_round2 v ;;
  q <-- py_div last_price previous_close ;;
  let pct_today := fmul (fsub q (Fin 1)) (Fin 100) in
  v <-- dict_get (info stock_selected) "open" ;;
  open_price <-- py_round2 v ;;
  v <-- dict_get (info stock_selected) "dayHigh" ;;
  day_high <-- py_round2 v ;;
  v <-- dict_get (info stock_selected) "dayLow" ;;
  day_low <-- py_round2 v ;;
  long_name <-- dict_get (info stock_selected) "longName" ;;
  business_summary <-- dict_get (info stock_selected) "longBusinessSummary" ;;
  web_site <-- dict_get (info stock_selected) "website" ;;
  sector <-- dict_get (info stock_selected) "sector" ;;
  industry <-- dict_get (info stock_selected) "industry" ;;
  Ok {| Last_Price := last_price;
        Previous_Close := previous_close;
        Pct_Today := pct_today;
        Open_Price := open_price;
        Day_High := day_high;
        Day_Low := day_low;
        Long_Name := long_name;
        Summary := business_summary;
        Web_Site := web_site;
        Sector := sector;
        Industry := industry |}.

End Ticker.

End Quotes.
Export Quotes.

(* ================================================================== *)
(** ** [src/streamlit_app.py]: the whole of [main] *)

Module Page.

Local Open Scope string_scope.

(** What the page shows, in order, and the loaders it calls. *)
Inductive widget : Type :=
| Logo
| Selectors
| Loaded (f : string)
| AboutTitle (long_name : value)
| Paragraph (text : str)
| Website (web_site : value)
| SectorLine (sector industry : value)
| Metric (label : string) (v : fl)
| StockTitle (stock : string)
| PriceChart (data : DataFrame)
| SectionTitle
| AnalysisSelectors
| Analysis (e : event).

Definition Run (A : Type) : Type := (list widget * option A)%type.

Definition done {A} (a : A) : Run A := ([], Some a).

Definition next {A B} (m : Run A) (f : A -> Run B) : Run B :=
  match m with
  | (l, Some a) => let (l', r) := f a in ((l ++ l')%list, r)
  | (l, None) => (l, None)
  end.

Notation "x <~ m ;; k" := (next m (fun x => k))
  (at level 61, m at next level, right associativity).
Notation "m ~~> k" := (next m (fun _ => k))
  (at level 61, right associativity).

Definition show (w : widget) : Run unit := ([w], Some tt).
Definition show_all (ws : list widget) : Run unit := (ws, Some tt).
Definition loading {A} (f : string) (v : option A) : Run A := ([Loaded f], v).
Definition raised {A} : Run A := ([], None).

Definition returned {A} (r : result A) : option A :=
  match r with
  | Ok a => Some a
  | Raise _ => None
  end.

(** The lines the popover writes for a summary: its pieces between the
    occurrences of ['. '], each stripped and followed by a full stop
    (lines 46-48). *)
Definition about_paragraphs (business_summary : str) : list str :=
  map (fun paragraph => (strip paragraph ++ [46%N])%list)
      (split 46 32 business_summary).

Section Main.
Variable kind : sort_kind (@snd string fl).
Variable fm : fill_method.
Variable history : string -> string -> option DataFrame.
Variable fast_info : string -> dict.
Variable info : string -> dict.
Variable history_close : string -> string -> option IndexedSeries.

(** Lines 24-111: the panel of one stock. *)
Definition panel (period stock_selected : string) : Run unit :=
  show Logo ~~> show Selectors ~~>
  df_stock <~ loading "load_ticker_history"
                (load_ticker_history history stock_selected period) ;;
  stats <~ loading "statistics_historical_data"
             (statistics_historical_data fm df_stock) ;;
  ticker_info <~ loading "load_ticker_info_today"
                   (returned (load_ticker_info_today fast_info info stock_selected)) ;;
  show (AboutTitle (Long_Name ticker_info)) ~~>
  paragraphs <~ match Summary ticker_info with
                | PyStr business_summary => done (about_paragraphs business_summary)
                | _ => raised
                end ;;
  show_all (map Paragraph paragraphs) ~~>
  show (Website (Web_Site ticker_info)) ~~>
  show (SectorLine (Sector ticker_info) (Industry ticker_info)) ~~>
  show (Metric "Cumulative Return" (Cumulative_Return stats)) ~~>
  show (Metric "Average Price" (Mean_Price stats)) ~~>
  show (Metric "Standard Deviation" (Standard_Deviation stats)) ~~>
  show (Metric "High Price" (High_Price stats)) ~~>
  show (Metric "Annualized Volatility" (Volatility stats)) ~~>
  show (Metric "Median Price" (Median_Price stats)) ~~>
  show (Metric "Coefficient Variation" (Coefficient_Variation stats)) ~~>
  show (Metric "Low Price" (Low_Price stats)) ~~>
  show (StockTitle stock_selected) ~~>
  show (Metric "Change %" (Pct_Today ticker_info)) ~~>
  show (Metric "Last Price" (Last_Price ticker_info)) ~~>
  show (Metric "Previous Close" (Previous_Close ticker_info)) ~~>
  show (Metric "Open Price" (Open_Price ticker_info)) ~~>
  show (Metric "Day High" (Day_High ticker_info)) ~~>
  show (Metric "Day Low" (Day_Low ticker_info)) ~~>
  show (PriceChart df_stock).

(** The block of lines 127-186, as [main] of [App] runs it. *)
Definition analyses (stocks_period : string) (stocks_list : list string)
  : Run unit :=
  let run := App.main kind fm history_close stocks_period stocks_list in
  (map Analysis (fst run), snd run).

(** The whole of [main], for the selections of its four widgets. *)
Definition page (period stock_selected stocks_period : string)
  (stocks_list : list string) : Run unit :=
  panel period stock_selected ~~>
  show SectionTitle ~~>
  show AnalysisSelectors ~~>
  analyses stocks_period stocks_list.

End Main.

End Page.
Export Page.

(* ================================================================== *)
(** ** Further statements on the engine *)

Module Props.

Local Open Scope string_scope.

(** Every column has one value for each date of the index. *)
Definition rectangular (df : DataFrame) : Prop :=
  Forall (fun c => length (snd c) = length (index df)) (columns df).

(** The dates of the first series that has any. *)
Fixpoint first_dates (fetched : list IndexedSeries) : list Date :=
  match fetched with
  | [] => []
  | [] :: fetched' => first_dates fetched'
  | s :: _ => map fst s
  end.

(** The series of [s] laid on the dates [dates]. *)
Definition aligned (dates : list Date) (s : IndexedSeries) : Series :=
  map (fun d => at_date d s) dates.

(** One turn of the loop of [df_stocks_close]. *)
Definition close_step (history_close : string -> string -> option IndexedSeries)
  (period : string) (acc : option DataFrame) (ticker : string) : option DataFrame :=
  match acc with
  | None => None
  | Some df_close_prices =>
      match history_close ticker period with
      | None => None
      | Some close => Some (setitem df_close_prices ticker close)
      end
  end.

(** The frame holds the series [done], in their order, each under its
    ticker and laid on the dates of the frame. *)
Definition holds (df : DataFrame) (done : list (string * IndexedSeries)) : Prop :=
  map fst (columns df) = map fst done
  /\ index df = first_dates (map snd done)
  /\ Forall (fun ts => lookup_column (fst ts) (columns df)
                       = Some (aligned (index df) (snd ts))) done.

(** What the fetch gave for a ticker, nothing if it raised. *)
Definition fetched (history_close : string -> string -> option IndexedSeries)
  (period : string) (ticker : string) : IndexedSeries :=
  match history_close ticker period with
  | Some s => s
  | None => []
  end.

(** A fetch of two tickers: the second one lacks the second date of the
    first and has a later date of its own. *)
Definition example_fetch (ticker period : string) : option IndexedSeries :=
  if String.eqb ticker "PETR4.SA"
  then Some [(1, Fin 10); (2, Fin 11); (3, Fin 12)]%Z
  else Some [(1, Fin 20); (3, Fin 22); (4, Fin 23)]%Z.

Definition example_close_table : DataFrame :=
  mkDataFrame [1; 2; 3]%Z
    [("PETR4.SA", [Fin 10; Fin 11; Fin 12]); ("VALE3.SA", [Fin 20; NaN; Fin 22])].

(** The returns of a series of prices that follows the price [prev]. *)
Fixpoint ratios_from (prev : R) (ps : list R) : list R :=
  match ps with
  | [] => []
  | p :: ps' => (p / prev - 1) :: ratios_from p ps'
  end.

(** The returns of a series of prices, 0 for the first one. *)
Definition ratios (ps : list R) : list R :=
  match ps with
  | [] => []
  | p :: ps' => 0 :: ratios_from p ps'
  end.

(** Each value of a series with the one before it. *)
Fixpoint pairs_from (prev : fl) (s : Series) : list (fl * fl) :=
  match s with
  | [] => []
  | x :: s' => (x, prev) :: pairs_from x s'
  end.

(** The string [s] ends with the string [suffix]. *)
Definition ends_with (suffix s : str) : Prop :=
  exists before, s = (before ++ suffix)%list.

(** The double is not a zero. *)
Definition nonzero (b : fl) : Prop := forall y, b = Fin y -> y <> 0.

(** The quote has what [load_ticker_info_today] needs: its five prices
    are numbers, the previous close does not round to zero, and its five
    texts are there. *)
Definition complete_quote (fast_info info : dict) : Prop :=
  (exists a p o h l,
     dict_get fast_info "lastPrice" = Ok (PyFloat a)
     /\ dict_get info "previousClose" = Ok (PyFloat p)
     /\ nonzero (round2 p)
     /\ dict_get info "open" = Ok (PyFloat o)
     /\ dict_get info "dayHigh" = Ok (PyFloat h)
     /\ dict_get info "dayLow" = Ok (PyFloat l))
  /\ Forall (fun key => exists v, dict_get info key = Ok v)
        ["longName"; "longBusinessSummary"; "website"; "sector"; "industry"].

(** A quote of Petrobras. *)
Definition example_fast_info : dict := [("lastPrice", PyFloat (Fin 38.127))].

Definition example_info : dict :=
  [("previousClose", PyFloat (Fin 37.5)); ("open", PyFloat (Fin 37.6));
   ("dayHigh", PyFloat (Fin 38.4)); ("dayLow", PyFloat (Fin 37.4));
   ("longName", PyStr (of_string "Petroleo Brasileiro S.A. - Petrobras"));
   ("longBusinessSummary", PyStr (of_string "Oil and gas. Founded in 1953."));
   ("website", PyStr (of_string "https://petrobras.com.br"));
   ("sector", PyStr (of_string "Energy"));
   ("industry", PyStr (of_string "Oil & Gas Integrated"))].

(** A quote whose previous close is below half a cent. *)
Definition penny_info : dict := [("previousClose", PyFloat (Fin 0.004))].

(** A fetched history of three bars, its times in seconds, and the table
    loaded from it. *)
Definition example_fetched : DataFrame :=
  mkDataFrame [1700006400; 1700092800; 1700179200]%Z
    [("Open", [Fin 100.004; Fin 104.2; Fin 109]);
     ("High", [Fin 101.126; Fin 111.004; Fin 110]);
     ("Low", [Fin 99.5; Fin 103; Fin 98.337]);
     ("Close", [Fin 100; Fin 110.5; Fin 99.25]);
     ("Volume", [Fin 1000; Fin 1200; Fin 900])].

Definition example_history (stock period : string) : option DataFrame :=
  Some example_fetched.

Definition example_loaded : DataFrame :=
  mkDataFrame [19676; 19677; 19678]%Z (columns (apply_columns round example_fetched)).

(** What the panel of a stock shows once its three loads are done. *)
Definition panel_widgets (stock : string) (df_stock : DataFrame)
  (stats : StatBundle) (ticker_info : TickerInfo) (business_summary : str)
  : list widget :=
  ([Logo; Selectors; Loaded "load_ticker_history";
    Loaded "statistics_historical_data"; Loaded "load_ticker_info_today";
    AboutTitle (Long_Name ticker_info)]
   ++ map Paragraph (about_paragraphs business_summary)
   ++ [Website (Web_Site ticker_info);
       SectorLine (Sector ticker_info) (Industry ticker_info);
       Metric "Cumulative Return" (Cumulative_Return stats);
       Metric "Average Price" (Mean_Price stats);
       Metric "Standard Deviation" (Standard_Deviation stats);
       Metric "High Price" (High_Price stats);
       Metric "Annualized Volatility" (Volatility stats);
       Metric "Median Price" (Median_Price stats);
       Metric "Coefficient Variation" (Coefficient_Variation stats);
       Metric "Low Price" (Low_Price stats);
       StockTitle stock;
       Metric "Change %" (Pct_Today ticker_info);
       Metric "Last Price" (Last_Price ticker_info);
       Metric "Previous Close" (Previous_Close ticker_info);
       Metric "Open Price" (Open_Price ticker_info);
       Metric "Day High" (Day_High ticker_info);
       Metric "Day Low" (Day_Low ticker_info);
       PriceChart df_stock])%list.

End Props.
Export Props.

(* ================================================================== *)
(** ** The caller and the empty selection *)

Local Open Scope string_scope.

Lemma main_stops_below_two kind fm history_close stocks_period stocks_list df :
  (length stocks_list < 2)%nat ->
  df_stocks_close history_close stocks_period stocks_list = Some df ->
  main kind fm history_close stocks_period stocks_list = (computed_then_stopped, None).
Proof.
  intros Hlen Hclose. unfold main. rewrite Hclose.
  destruct stocks_list as [| t [| t' l]]; simpl in Hlen; try lia; reflexivity.
Qed.

(** C1 (as amended): with fewer than two tickers selected, and the close
    prices fetched, the run calls every multi-ticker function, then warns
    and stops; it draws nothing. *)
Theorem C1_computes_then_stops kind fm history_close stocks_period stocks_list df :
  (length stocks_list < 2)%nat ->
  df_stocks_close history_close stocks_period stocks_list = Some df ->
  let run := main kind fm history_close stocks_period stocks_list in
  fst run = computed_then_stopped
  /\ snd run = None
  /\ (forall f, In f multi_ticker_functions -> In (Call f) (fst run))
  /\ forallb (fun e => negb (is_render e)) (fst run) = true.
Proof.
  intros Hlen Hclose run. subst run.
  rewrite (main_stops_below_two kind fm _ _ _ df Hlen Hclose). cbn [fst snd].
  repeat split; try reflexivity.
  intros f Hf. unfold multi_ticker_functions in Hf. unfold computed_then_stopped.
  simpl in Hf. simpl.
  repeat (destruct Hf as [<- | Hf]; [tauto |]). contradiction.
Qed.

Lemma C1_computes_then_stops_witness :
  let run := main (stable snd) pad (fun _ _ => Some [(1%Z, Fin 10); (2%Z, Fin 11)])
               "1y" ["PETR4.SA"] in
  fst run = computed_then_stopped
  /\ snd run = None
  /\ (forall f, In f multi_ticker_functions -> In (Call f) (fst run))
  /\ forallb (fun e => negb (is_render e)) (fst run) = true.
Proof.
  apply (C1_computes_then_stops (stable snd) pad _ "1y" ["PETR4.SA"]
           (setitem empty_frame "PETR4.SA" [(1%Z, Fin 10); (2%Z, Fin 11)])).
  - simpl. lia.
  - reflexivity.
Defined.

(** C1 (as stated) fails: with no ticker selected the run does call the
    multi-ticker functions. *)
Lemma C1_no_short_circuit :
  ~ short_circuits (main (stable snd) pad (fun _ _ => None) "1y" []).
Proof.
  intros [Hcalls _]. apply (Hcalls "df_returns").
  - simpl. tauto.
  - cbn. tauto.
Qed.

Lemma argsort_nil {A} (key : A -> fl) (kind : sort_kind key) : argsort kind [] = [].
Proof. apply Permutation_nil, Permutation_sym, argsort_permutes. Qed.

Lemma sort_values_desc_nil {A} (key : A -> fl) (kind : sort_kind key) :
  sort_values_desc kind [] = [].
Proof. unfold sort_values_desc. cbn [filter rev]. now rewrite argsort_nil. Qed.

(** C10: on the frame of an empty selection every engine function returns
    an empty table, and the run of [main] gets through all of them to the
    warning. *)
Theorem C10_empty_selection kind fm history_close stocks_period :
  df_stocks_close history_close stocks_period [] = Some empty_frame
  /\ df_returns fm empty_frame = empty_frame
  /\ df_stocks_returns_ranking kind empty_frame = []
  /\ df_stocks_returns_period empty_frame = empty_frame
  /\ df_annualized_volatility kind empty_frame = []
  /\ df_coefficient_variation kind empty_frame = []
  /\ corr empty_frame = []
  /\ main kind fm history_close stocks_period [] = (computed_then_stopped, None).
Proof.
  unfold df_stocks_returns_ranking, df_annualized_volatility, df_coefficient_variation.
  cbn [empty_frame cumulative_returns reduce_columns apply_columns columns
       map_values div_labelled combine map].
  rewrite !sort_values_desc_nil. repeat split.
Qed.

(* ================================================================== *)
(** ** Facts on doubles and on series *)

Local Open Scope R_scope.

(** Settles the comparisons of concrete reals that a goal branches on. *)
Ltac rdec :=
  repeat match goal with
    | |- context [Req_dec_T ?a ?b] => destruct (Req_dec_T a b); try lra
    | |- context [Rlt_dec ?a ?b] => destruct (Rlt_dec a b); try lra
    | |- context [Rle_dec ?a ?b] => destruct (Rle_dec a b); try lra
    end.

(** Evaluates a series of concrete reals. *)
Ltac fl_eval := repeat (progress (cbn; unfold scale_inf; rdec)).

(** Equality of two evaluated series, entry by entry. *)
Ltac fin_eq :=
  repeat match goal with
    | |- _ :: _ = _ :: _ => f_equal
    | |- (_, _) = (_, _) => f_equal
    | |- Fin _ = Fin _ => apply f_equal; lra
    end.

Lemma fdiv_nan_r a : fdiv a NaN = NaN.
Proof. destruct a; reflexivity. Qed.

Lemma fsub_nan_l a : fsub NaN a = NaN.
Proof. reflexivity. Qed.

Lemma fmul_nan_l a : fmul NaN a = NaN.
Proof. reflexivity. Qed.

Lemma fmul_nan_r a : fmul a NaN = NaN.
Proof. destruct a; reflexivity. Qed.

Lemma count_le_length s : (count s <= length s)%nat.
Proof. unfold count. apply filter_length_le. Qed.

Lemma var_short s : (length s < 2)%nat -> var s = NaN.
Proof.
  intros H. unfold var. pose proof (count_le_length s) as Hc.
  destruct (Nat.leb_spec (count s) 1); [reflexivity | lia].
Qed.

Lemma std_short s : (length s < 2)%nat -> std s = NaN.
Proof. intros H. unfold std. rewrite (var_short s H). reflexivity. Qed.

Lemma ffill_from_length s : forall last, length (ffill_from last s) = length s.
Proof. induction s as [| x s IH]; intros last; simpl; [| rewrite IH]; reflexivity. Qed.

Lemma removelast_cons_length (s : Series) :
  forall x, length (removelast (x :: s)) = length s.
Proof.
  induction s as [| y s IH]; intros x; [reflexivity |].
  change (removelast (x :: y :: s)) with (x :: removelast (y :: s)).
  cbn [length]. now rewrite IH.
Qed.

Lemma shift_length s : length (shift s) = length s.
Proof.
  destruct s as [| x s]; [reflexivity |].
  unfold shift. cbn [length]. now rewrite removelast_cons_length.
Qed.

Lemma pct_change_length fm s : length (pct_change fm s) = length s.
Proof.
  unfold pct_change. rewrite length_map, length_combine, shift_length.
  rewrite Nat.min_id. destruct fm; [apply ffill_from_length | reflexivity].
Qed.

Lemma fillna_length v s : length (fillna v s) = length s.
Proof. apply length_map. Qed.

Lemma pct_change_single fm c : pct_change fm [c] = [NaN].
Proof.
  destruct fm; unfold pct_change; simpl; rewrite fdiv_nan_r; reflexivity.
Qed.

(* ================================================================== *)
(** ** Tables of fewer than two bars *)

Lemma short_returns fm close :
  (length close < 2)%nat ->
  fillna (Fin 0) (pct_change fm close) = repeat (Fin 0) (length close).
Proof.
  destruct close as [| c [| c' l]]; simpl; intros H; try lia.
  - destruct fm; reflexivity.
  - rewrite pct_change_single. reflexivity.
Qed.

Lemma short_cumulative n :
  (n < 2)%nat ->
  fmul (fsub (prod (radd (Fin 1) (repeat (Fin 0) n))) (Fin 1)) (Fin 100) = Fin 0.
Proof.
  destruct n as [| [| n]]; intros H; try lia; cbn; f_equal; lra.
Qed.

(** C3 (as amended): a table of fewer than two bars has cumulative return
    0, and its volatility and standard deviation are NaN, not 0; with
    exactly one bar the high price is the High of that bar and the low
    price its Low. *)
Theorem C3_short_table fm df_stock close high low :
  getitem df_stock "Close" = Some close ->
  getitem df_stock "High" = Some high ->
  getitem df_stock "Low" = Some low ->
  (length close < 2)%nat ->
  exists stats,
    statistics_historical_data fm df_stock = Some stats
    /\ Volatility stats = NaN
    /\ Standard_Deviation stats = NaN
    /\ Cumulative_Return stats = Fin 0
    /\ (forall h, high = [h] -> High_Price stats = h)
    /\ (forall l, low = [l] -> Low_Price stats = l).
Proof.
  intros HC HH HL Hlen. unfold statistics_historical_data.
  rewrite HC, HH, HL. eexists. split; [reflexivity |]. cbn [Volatility
    Standard_Deviation Cumulative_Return High_Price Low_Price].
  rewrite (short_returns fm close Hlen).
  repeat split.
  - rewrite std_short; [reflexivity | now rewrite repeat_length].
  - now apply std_short.
  - now apply short_cumulative.
  - intros h ->. destruct h; reflexivity.
  - intros l ->. destruct l; reflexivity.
Qed.

Lemma C3_short_table_witness :
  exists stats,
    statistics_historical_data pad (one_bar (Fin 10)) = Some stats
    /\ Volatility stats = NaN
    /\ Standard_Deviation stats = NaN
    /\ Cumulative_Return stats = Fin 0
    /\ (forall h, [Fin 10] = [h] -> High_Price stats = h)
    /\ (forall l, [Fin 10] = [l] -> Low_Price stats = l).
Proof.
  apply (C3_short_table pad (one_bar (Fin 10)) [Fin 10] [Fin 10] [Fin 10]);
    try reflexivity.
  simpl. lia.
Defined.

(** C3 (as stated) fails: on a table of one bar the volatility is NaN,
    whichever fill [pct_change] applies. *)
Lemma C3_one_bar_volatility_nan :
  ~ short_table_policy pad (one_bar (Fin 10))
  /\ ~ short_table_policy no_fill (one_bar (Fin 10)).
Proof.
  split; intros H;
    destruct (H [Fin 10] _ eq_refl ltac:(simpl; lia) eq_refl) as [Hvol _];
    cbn in Hvol; discriminate Hvol.
Qed.

(* ================================================================== *)
(** ** The return series *)

Lemma nth_removelast (s : Series) :
  forall k, (S k < length s)%nat -> nth k (removelast s) NaN = nth k s NaN.
Proof.
  induction s as [| x s IH]; intros k Hk; [simpl in Hk; lia |].
  destruct s as [| y s]; [simpl in Hk; lia |].
  change (removelast (x :: y :: s)) with (x :: removelast (y :: s)).
  destruct k as [| k]; [reflexivity |].
  cbn [nth]. apply IH. simpl in Hk |- *. lia.
Qed.

Lemma nth_shift s i :
  (i < length s)%nat ->
  nth i (shift s) NaN = match i with O => NaN | S k => nth k s NaN end.
Proof.
  intros Hi. destruct s as [| x s]; [simpl in Hi; lia |].
  unfold shift. destruct i as [| k]; [reflexivity |].
  cbn [nth]. apply nth_removelast. exact Hi.
Qed.

(** Row [i] of [data / data.shift(1) - 1]. *)
Lemma nth_change data i :
  (i < length data)%nat ->
  nth i (map (fun p => fsub (fdiv (fst p) (snd p)) (Fin 1))
             (combine data (shift data))) NaN
  = fsub (fdiv (nth i data NaN)
               (match i with O => NaN | S k => nth k data NaN end)) (Fin 1).
Proof.
  intros Hi.
  change NaN with ((fun p => fsub (fdiv (fst p) (snd p)) (Fin 1)) (NaN, NaN)) at 1.
  rewrite map_nth, combine_nth by (now rewrite shift_length).
  cbn [fst snd]. now rewrite nth_shift.
Qed.

Lemma nth_fillna v s i :
  (i < length s)%nat ->
  nth i (fillna v s) NaN = if isna (nth i s NaN) then v else nth i s NaN.
Proof.
  revert i. induction s as [| x s IH]; intros i Hi; [simpl in Hi; lia |].
  destruct i as [| i]; [reflexivity |].
  cbn [fillna map nth]. apply IH. simpl in Hi. lia.
Qed.

Lemma nth_ffill_from s :
  forall last i, (i < length s)%nat ->
  nth i (ffill_from last s) NaN
  = if isna (nth i s NaN)
    then match i with O => last | S k => nth k (ffill_from last s) NaN end
    else nth i s NaN.
Proof.
  induction s as [| x s IH]; intros last i Hi; [simpl in Hi; lia |].
  destruct i as [| i].
  - simpl. destruct (isna x); reflexivity.
  - cbn [ffill_from nth]. rewrite IH by (simpl in Hi; lia).
    destruct (isna (nth i s NaN)); [| reflexivity].
    destruct i; reflexivity.
Qed.

Lemma nth_return_series fm price i :
  (i < length price)%nat ->
  let data := match fm with pad => ffill price | no_fill => price end in
  let q := fsub (fdiv (nth i data NaN)
                      (match i with O => NaN | S k => nth k data NaN end)) (Fin 1) in
  nth i (return_series fm price) NaN = if isna q then Fin 0 else q.
Proof.
  intros Hi data q. unfold return_series.
  rewrite nth_fillna by (now rewrite pct_change_length).
  unfold pct_change. fold data.
  assert (Hd : length data = length price).
  { subst data. destruct fm; [apply ffill_from_length | reflexivity]. }
  rewrite nth_change by (now rewrite Hd). reflexivity.
Qed.

Lemma self_ratio_filled v :
  (let q := fsub (fdiv v v) (Fin 1) in if isna q then Fin 0 else q) = Fin 0.
Proof.
  destruct v as [| | | x]; try reflexivity.
  cbn. unfold scale_inf. destruct (Req_dec_T x 0) as [-> | Hx].
  - destruct (Req_dec_T 0 0); [reflexivity | lra].
  - cbn. f_equal. field. exact Hx.
Qed.

Lemma df_returns_columns fm df :
  df_returns fm df = apply_columns (return_series fm) df.
Proof.
  unfold df_returns, apply_columns. cbn [index columns].
  now rewrite map_map.
Qed.

Lemma return_series_first fm price :
  price <> [] -> nth 0 (return_series fm price) NaN = Fin 0.
Proof.
  intros Hne.
  rewrite nth_return_series by (destruct price; [congruence | simpl; lia]).
  now rewrite fdiv_nan_r.
Qed.

Lemma return_series_ratio fm price i x y :
  (1 <= i < length price)%nat ->
  nth i price NaN = Fin x -> nth (i - 1) price NaN = Fin y -> y <> 0 ->
  nth i (return_series fm price) NaN = Fin (x / y - 1).
Proof.
  intros [H1 Hi] Hx Hy Hy0.
  rewrite nth_return_series by exact Hi.
  destruct i as [| k]; [lia |].
  replace (S k - 1)%nat with k in Hy by lia.
  assert (Hd : forall data, nth (S k) data NaN = Fin x -> nth k data NaN = Fin y ->
            (let q := fsub (fdiv (nth (S k) data NaN) (nth k data NaN)) (Fin 1) in
             if isna q then Fin 0 else q) = Fin (x / y - 1)).
  { intros data -> ->. cbn. destruct (Req_dec_T y 0); [contradiction | reflexivity]. }
  destruct fm; apply Hd; try assumption; unfold ffill.
  - rewrite nth_ffill_from by exact Hi. now rewrite Hx.
  - rewrite nth_ffill_from by lia. now rewrite Hy.
Qed.

Lemma return_series_missing fm price i :
  (i < length price)%nat -> nth i price NaN = NaN ->
  nth i (return_series fm price) NaN = Fin 0.
Proof.
  intros Hi Hna.
  rewrite nth_return_series by exact Hi.
  destruct fm.
  - unfold ffill. rewrite (nth_ffill_from price NaN i Hi), Hna. cbn [isna].
    destruct i as [| k]; [reflexivity |]. apply self_ratio_filled.
  - rewrite Hna. reflexivity.
Qed.

(** C4 (as amended): in every column taken on its own, the first return
    is 0; a return whose two prices are present, the earlier one not
    zero, is [price[i] / price[i-1] - 1]; the return at a missing price is
    0. *)
Theorem C4_return_series fm :
  (forall price, price <> [] -> nth 0 (return_series fm price) NaN = Fin 0)
  /\ (forall price i x y,
        (1 <= i < length price)%nat ->
        nth i price NaN = Fin x -> nth (i - 1) price NaN = Fin y -> y <> 0 ->
        nth i (return_series fm price) NaN = Fin (x / y - 1))
  /\ (forall price i,
        (i < length price)%nat -> nth i price NaN = NaN ->
        nth i (return_series fm price) NaN = Fin 0)
  /\ (forall df, df_returns fm df = apply_columns (return_series fm) df).
Proof.
  split; [| split; [| split]].
  - apply return_series_first.
  - apply return_series_ratio.
  - apply return_series_missing.
  - apply df_returns_columns.
Qed.

Lemma C4_return_series_witness :
  nth 1 (return_series pad [Fin 100; Fin 110; Fin 99]) NaN = Fin (110 / 100 - 1).
Proof.
  apply (proj1 (proj2 (C4_return_series pad)) [Fin 100; Fin 110; Fin 99] 1%nat 110 100).
  - simpl. lia.
  - reflexivity.
  - reflexivity.
  - lra.
Defined.

(** C4 (as stated) fails: the return at a missing price is 0, where the
    quotient of the formula is NaN, whichever fill [pct_change] applies. *)
Lemma C4_missing_price_return :
  ~ returns_formula pad [Fin 10; NaN; Fin 12]
  /\ ~ returns_formula no_fill [Fin 10; NaN; Fin 12].
Proof.
  split; intros [_ H]; specialize (H 1%nat ltac:(simpl; lia)).
  - rewrite (return_series_missing pad _ 1%nat) in H;
      [discriminate H | simpl; lia | reflexivity].
  - rewrite (return_series_missing no_fill _ 1%nat) in H;
      [discriminate H | simpl; lia | reflexivity].
Qed.

(* ================================================================== *)
(** ** Sorting *)

Section SortFacts.
Context {A : Type} {key : A -> fl} (kind : sort_kind key).

Lemma filter_split_perm (f : A -> bool) l :
  Permutation (filter f l ++ filter (fun x => negb (f x)) l) l.
Proof.
  induction l as [| x l IH]; simpl; [reflexivity |].
  destruct (f x); simpl.
  - now constructor.
  - rewrite <- Permutation_middle. now constructor.
Qed.

Lemma sort_values_desc_perm rows : Permutation (sort_values_desc kind rows) rows.
Proof.
  unfold sort_values_desc.
  rewrite <- Permutation_rev, argsort_permutes, <- Permutation_rev.
  rewrite (filter_ext (fun r => isna (key r)) (fun r => negb (notna (key r)))).
  - apply filter_split_perm.
  - intros r. unfold notna. now rewrite negb_involutive.
Qed.

Lemma argsort_sorted l :
  Forall (fun r => notna (key r) = true) l -> Sorted (asc key) (argsort kind l).
Proof. apply argsort_ascends. Qed.
End SortFacts.

Lemma Sorted_snoc {A} (R : A -> A -> Prop) l x :
  Sorted R l -> (forall y, last l x = y -> l <> [] -> R y x) -> Sorted R (l ++ [x]).
Proof.
  induction l as [| a l IH]; intros Hs Hlast; simpl; [repeat constructor |].
  inversion Hs; subst. constructor.
  - apply IH; [assumption |]. intros y Hy Hne. apply Hlast; [| discriminate].
    destruct l; [contradiction | exact Hy].
  - destruct l as [| b l]; simpl.
    + constructor. apply Hlast; [reflexivity | discriminate].
    + constructor. now inversion H2.
Qed.

Lemma Sorted_rev {A} (R : A -> A -> Prop) l :
  Sorted R l -> Sorted (fun a b => R b a) (rev l).
Proof.
  induction l as [| a l IH]; intros Hs; simpl; [constructor |].
  inversion Hs; subst. apply Sorted_snoc; [now apply IH |].
  intros y Hy Hne. destruct l as [| b l]; [contradiction |].
  inversion H2; subst. simpl. rewrite last_last. assumption.
Qed.

(* ================================================================== *)
(** ** Cumulative return *)

Lemma fillna_finite v xs : fillna v (map Fin xs) = map Fin xs.
Proof. unfold fillna. rewrite map_map. reflexivity. Qed.

Lemma radd_finite c xs : radd (Fin c) (map Fin xs) = map Fin (map (fun x => c + x) xs).
Proof. unfold radd. now rewrite !map_map. Qed.

Lemma fold_fmul_finite xs : forall a,
  fold_left fmul (map Fin xs) (Fin a) = Fin (a * Rprod xs).
Proof.
  induction xs as [| x xs IH]; intros a; simpl.
  - f_equal. lra.
  - rewrite IH. f_equal. lra.
Qed.

Lemma prod_finite xs : prod (map Fin xs) = Fin (Rprod xs).
Proof.
  unfold prod. rewrite fillna_finite, fold_fmul_finite. f_equal. lra.
Qed.

(** The cumulative return of one column of returns, as both functions
    compute it. *)
Lemma cumulative_finite rs :
  fmul (fsub (prod (radd (Fin 1) (map Fin rs))) (Fin 1)) (Fin 100)
  = Fin (compounded rs).
Proof. rewrite radd_finite, prod_finite. reflexivity. Qed.

Lemma cumulative_returns_columns df :
  cumulative_returns df
  = map (fun c => (fst c, fmul (fsub (prod (radd (Fin 1) (snd c))) (Fin 1)) (Fin 100)))
        (columns df).
Proof.
  unfold cumulative_returns, map_values, reduce_columns, apply_columns.
  cbn [columns]. now rewrite !map_map.
Qed.

Lemma ranking_row kind df t col :
  In (t, col) (columns df) ->
  In (t, round2 (fmul (fsub (prod (radd (Fin 1) col)) (Fin 1)) (Fin 100)))
     (df_stocks_returns_ranking kind df).
Proof.
  intros Hin. unfold df_stocks_returns_ranking, map_values.
  apply (in_map (fun r => (fst r, round2 (snd r)))
           _ (t, fmul (fsub (prod (radd (Fin 1) col)) (Fin 1)) (Fin 100))).
  eapply Permutation_in; [symmetry; apply sort_values_desc_perm |].
  rewrite cumulative_returns_columns.
  apply (in_map (fun c => (fst c, fmul (fsub (prod (radd (Fin 1) (snd c))) (Fin 1)) (Fin 100)))
           _ (t, col)).
  exact Hin.
Qed.

Lemma example_returns fm :
  return_series fm [Fin 100; Fin 110; Fin 99] = map Fin [0; 0.10; -0.10].
Proof.
  destruct fm; fl_eval; fin_eq.
Qed.

(** C5: the cumulative return is [(prod (1 + r) - 1) * 100] over the
    return series [r], in [statistics_historical_data] as it stands and in
    [df_stocks_returns_ranking] under the rounding to two decimals of that
    table; closes 100, 110, 99 give returns 0, 0.10, -0.10 and -1.0
    percent. *)
Theorem C5_cumulative_return kind fm :
  (forall df_stock close high low rs,
     getitem df_stock "Close" = Some close ->
     getitem df_stock "High" = Some high ->
     getitem df_stock "Low" = Some low ->
     return_series fm close = map Fin rs ->
     option_map Cumulative_Return (statistics_historical_data fm df_stock)
     = Some (Fin (compounded rs)))
  /\ (forall df_close_returns ticker rs,
        In (ticker, map Fin rs) (columns df_close_returns) ->
        In (ticker, round2 (Fin (compounded rs)))
           (df_stocks_returns_ranking kind df_close_returns))
  /\ return_series fm [Fin 100; Fin 110; Fin 99] = map Fin [0; 0.10; -0.10]
  /\ compounded [0; 0.10; -0.10] = -1.0.
Proof.
  split; [| split; [| split]].
  - intros df close high low rs HC HH HL Hr. unfold statistics_historical_data.
    rewrite HC, HH, HL. cbn [option_map Cumulative_Return].
    fold (return_series fm close). rewrite Hr. f_equal. apply cumulative_finite.
  - intros df t rs Hin. rewrite <- cumulative_finite. now apply ranking_row.
  - apply example_returns.
  - unfold compounded. simpl. lra.
Qed.

Lemma C5_cumulative_return_witness :
  option_map Cumulative_Return (statistics_historical_data pad example_table)
  = Some (Fin (compounded [0; 0.10; -0.10])).
Proof.
  apply (proj1 (C5_cumulative_return (stable snd) pad) example_table
           [Fin 100; Fin 110; Fin 99] [Fin 101; Fin 111; Fin 110]
           [Fin 99; Fin 103; Fin 98] [0; 0.10; -0.10]);
    try reflexivity.
  apply example_returns.
Defined.

(* ================================================================== *)
(** ** The cumulative series and the ranking *)

Lemma last_cumprod_from s : forall a,
  s <> [] -> isna (last s NaN) = false ->
  last (map (fun p => if isna (fst p) then NaN else snd p)
            (combine s (accumulate a (fillna (Fin 1) s)))) NaN
  = fold_left fmul (fillna (Fin 1) s) a.
Proof.
  induction s as [| x s IH]; intros a Hne Hlast; [congruence |].
  destruct s as [| y s].
  - simpl in Hlast. simpl. now rewrite Hlast.
  - specialize (IH (fmul a (if isna x then Fin 1 else x)) ltac:(discriminate) Hlast).
    cbn [fillna map accumulate combine] in IH |- *.
    cbn [fold_left last]. exact IH.
Qed.

Lemma last_cumprod s :
  s <> [] -> isna (last s NaN) = false -> last (cumprod s) NaN = prod s.
Proof. intros Hne Hlast. now apply last_cumprod_from. Qed.

Lemma last_map_strict (f : fl -> fl) s :
  s <> [] -> last (map f s) NaN = f (last s NaN).
Proof.
  induction s as [| x s IH]; intros Hne; [congruence |].
  destruct s as [| y s]; [reflexivity |].
  change (last (map f (x :: y :: s)) NaN) with (last (map f (y :: s)) NaN).
  change (last (x :: y :: s) NaN) with (last (y :: s) NaN).
  apply IH. discriminate.
Qed.

Lemma cumprod_length s : length (cumprod s) = length s.
Proof.
  unfold cumprod. rewrite length_map, length_combine.
  assert (H : forall l a, length (accumulate a l) = length l).
  { induction l as [| x l IHl]; intros a; simpl; [| rewrite IHl]; reflexivity. }
  rewrite H, fillna_length. apply Nat.min_id.
Qed.

Lemma period_columns df :
  columns (df_stocks_returns_period df)
  = map (fun c => (fst c, period_column (snd c))) (columns df).
Proof.
  unfold df_stocks_returns_period, apply_columns. cbn [columns].
  now rewrite !map_map.
Qed.

Lemma period_column_length col : length (period_column col) = length col.
Proof.
  unfold period_column, round, mul_scalar, sub_scalar, radd.
  now rewrite !length_map, cumprod_length, length_map.
Qed.

Lemma last_period_column col :
  col <> [] -> isna (last col NaN) = false ->
  last (period_column col) NaN
  = round2 (fmul (fsub (prod (radd (Fin 1) col)) (Fin 1)) (Fin 100)).
Proof.
  intros Hne Hlast.
  assert (Hc : cumprod (radd (Fin 1) col) <> []).
  { intros E. apply (f_equal (@length fl)) in E.
    rewrite cumprod_length in E. unfold radd in E. rewrite length_map in E.
    destruct col; [congruence | discriminate]. }
  unfold period_column, round, mul_scalar, sub_scalar.
  rewrite !map_map.
  rewrite (last_map_strict (fun x => round2 (fmul (fsub x (Fin 1)) (Fin 100)))) by exact Hc.
  rewrite last_cumprod; [reflexivity | |].
  - unfold radd. destruct col; [congruence | discriminate].
  - unfold radd. rewrite last_map_strict by exact Hne.
    destruct (last col NaN); [discriminate | reflexivity ..].
Qed.

Lemma return_series_present fm price :
  Forall (fun x => isna x = false) (return_series fm price).
Proof.
  unfold return_series, fillna. apply Forall_forall. intros x Hx.
  apply in_map_iff in Hx. destruct Hx as [y [<- _]]. destruct y; reflexivity.
Qed.

Lemma last_present s :
  s <> [] -> Forall (fun x => isna x = false) s -> isna (last s NaN) = false.
Proof.
  intros Hne Hall. rewrite Forall_forall in Hall. apply Hall.
  destruct s as [| x s]; [congruence |].
  rewrite (app_removelast_last NaN Hne) at 2. apply in_or_app. right. now left.
Qed.

(** C7: for a column of returns whose last value is present, the last row
    of the cumulative series is the value the ranking gives the ticker,
    both rounded to two decimals; every column [df_returns] produces is
    such a column. *)
Theorem C7_last_row_is_ranking_value kind :
  (forall df_close_returns j ticker col,
     nth_error (columns df_close_returns) j = Some (ticker, col) ->
     col <> [] -> isna (last col NaN) = false ->
     exists series,
       nth_error (columns (df_stocks_returns_period df_close_returns)) j
       = Some (ticker, series)
       /\ length series = length col
       /\ In (ticker, last series NaN) (df_stocks_returns_ranking kind df_close_returns))
  /\ (forall fm df_close_prices j ticker col,
        nth_error (columns (df_returns fm df_close_prices)) j = Some (ticker, col) ->
        col <> [] -> isna (last col NaN) = false).
Proof.
  split.
  - intros df j t col Hj Hne Hlast. exists (period_column col).
    rewrite period_columns, nth_error_map, Hj. split; [reflexivity |].
    split; [apply period_column_length |].
    rewrite last_period_column by assumption.
    apply ranking_row. eapply nth_error_In. exact Hj.
  - intros fm df j t col Hj Hne. apply last_present; [exact Hne |].
    rewrite df_returns_columns in Hj. unfold apply_columns in Hj.
    cbn [columns] in Hj. rewrite nth_error_map in Hj.
    destruct (nth_error (columns df) j) as [[t' p] |]; [| discriminate].
    injection Hj as _ <-. apply return_series_present.
Qed.

Lemma C7_last_row_is_ranking_value_witness :
  exists series,
    nth_error (columns (df_stocks_returns_period example_returns_frame)) 0
    = Some ("PETR4.SA", series)
    /\ length series = 3%nat
    /\ In ("PETR4.SA", last series NaN)
          (df_stocks_returns_ranking (stable snd) example_returns_frame).
Proof.
  apply (proj1 (C7_last_row_is_ranking_value (stable snd)) example_returns_frame 0%nat
           "PETR4.SA" [Fin 0; Fin 0.10; Fin (-0.10)]).
  - reflexivity.
  - discriminate.
  - reflexivity.
Defined.

(* ================================================================== *)
(** ** Standard deviation and annualized volatility *)

Lemma count_finite xs : count (map Fin xs) = length xs.
Proof.
  unfold count. induction xs as [| x xs IH]; simpl; [| rewrite IH]; reflexivity.
Qed.

Lemma fold_fadd_finite xs : forall a,
  fold_left fadd (map Fin xs) (Fin a) = Fin (a + Rsum xs).
Proof.
  induction xs as [| x xs IH]; intros a; simpl.
  - f_equal. lra.
  - rewrite IH. f_equal. lra.
Qed.

Lemma sum_finite xs : sum (map Fin xs) = Fin (Rsum xs).
Proof. unfold sum. rewrite fillna_finite, fold_fadd_finite. f_equal. lra. Qed.

Lemma INR_ge_2 n : (2 <= n)%nat -> 2 <= INR n.
Proof. intros H. apply le_INR in H. simpl in H. lra. Qed.

Lemma Rsum_cons x l : Rsum (x :: l) = x + Rsum l.
Proof. reflexivity. Qed.

Lemma Rsum_squares_nonneg (f : R -> R) xs : 0 <= Rsum (map (fun x => f x ^ 2) xs).
Proof.
  induction xs as [| x xs IH]; [simpl; lra |].
  cbn [map]. rewrite Rsum_cons.
  pose proof (pow2_ge_0 (f x)). lra.
Qed.

Lemma sample_var_nonneg xs : (2 <= length xs)%nat -> 0 <= sample_var xs.
Proof.
  intros Hn. unfold sample_var. apply INR_ge_2 in Hn.
  apply Rmult_le_pos; [apply Rsum_squares_nonneg |].
  apply Rlt_le, Rinv_0_lt_compat. lra.
Qed.

Lemma var_finite xs :
  (2 <= length xs)%nat -> var (map Fin xs) = Fin (sample_var xs).
Proof.
  intros Hn. unfold var. rewrite count_finite.
  destruct (Nat.leb_spec (length xs) 1); [lia |].
  pose proof (INR_ge_2 _ Hn) as Hr.
  rewrite sum_finite.
  assert (Havg : fdiv (Fin (Rsum xs)) (Fin (INR (length xs))) = Fin (Rmean xs)).
  { cbn. destruct (Req_dec_T (INR (length xs)) 0); [lra | reflexivity]. }
  rewrite Havg. rewrite map_map. cbn [isna fsub fneg fadd fmul].
  rewrite <- (map_map (fun x => (Rmean xs + - x) * (Rmean xs + - x)) Fin).
  rewrite fold_fadd_finite. cbn.
  destruct (Req_dec_T (INR (length xs) - 1) 0); [lra |].
  f_equal. unfold sample_var. f_equal. rewrite Rplus_0_l. f_equal.
  apply map_ext. intros x. ring.
Qed.

Lemma std_finite xs :
  (2 <= length xs)%nat -> std (map Fin xs) = Fin (sample_std xs).
Proof.
  intros Hn. unfold std. rewrite var_finite by exact Hn.
  pose proof (sample_var_nonneg xs Hn). cbn.
  destruct (Rlt_dec (sample_var xs) 0); [lra | reflexivity].
Qed.

(** [252 ** 0.5] *)
Lemma power_252 : Rpower 252 0.5 = sqrt 252.
Proof.
  replace 0.5 with (/ 2) by lra. apply Rpower_sqrt. lra.
Qed.

Lemma annualized_finite xs :
  (2 <= length xs)%nat ->
  fmul (fmul (std (map Fin xs)) (Fin (Rpower 252 0.5))) (Fin 100)
  = Fin (sample_std xs * sqrt 252 * 100).
Proof. intros Hn. rewrite std_finite by exact Hn. rewrite power_252. reflexivity. Qed.

Lemma volatility_row kind df t col :
  In (t, col) (columns df) ->
  In (t, round2 (fmul (fmul (std col) (Fin (Rpower 252 0.5))) (Fin 100)))
     (df_annualized_volatility kind df).
Proof.
  intros Hin. unfold df_annualized_volatility.
  eapply Permutation_in; [symmetry; apply sort_values_desc_perm |].
  unfold map_values, reduce_columns. rewrite !map_map. cbn [fst snd].
  apply (in_map (fun c => (fst c, round2 (fmul (fmul (std (snd c)) (Fin (Rpower 252 0.5))) (Fin 100))))
           _ (t, col)).
  exact Hin.
Qed.

(** C6: on a series of at least two numbers the standard deviation divides
    by [n - 1]; the volatility of [statistics_historical_data] is that
    deviation of the returns times [sqrt 252] times 100, and so is, rounded
    to two decimals, each value of [df_annualized_volatility]; the standard
    deviation of the bundle is that deviation of the closes. *)
Theorem C6_sample_deviation kind fm :
  (forall df_stock close high low rs,
     getitem df_stock "Close" = Some close ->
     getitem df_stock "High" = Some high ->
     getitem df_stock "Low" = Some low ->
     return_series fm close = map Fin rs -> (2 <= length rs)%nat ->
     option_map Volatility (statistics_historical_data fm df_stock)
     = Some (Fin (sample_std rs * sqrt 252 * 100)))
  /\ (forall df_stock close high low cs,
        getitem df_stock "Close" = Some close ->
        getitem df_stock "High" = Some high ->
        getitem df_stock "Low" = Some low ->
        close = map Fin cs -> (2 <= length cs)%nat ->
        option_map Standard_Deviation (statistics_historical_data fm df_stock)
        = Some (Fin (sample_std cs)))
  /\ (forall df_close_returns ticker rs,
        In (ticker, map Fin rs) (columns df_close_returns) ->
        (2 <= length rs)%nat ->
        In (ticker, round2 (Fin (sample_std rs * sqrt 252 * 100)))
           (df_annualized_volatility kind df_close_returns)).
Proof.
  split; [| split].
  - intros df close high low rs HC HH HL Hr Hn. unfold statistics_historical_data.
    rewrite HC, HH, HL. cbn [option_map Volatility].
    fold (return_series fm close). rewrite Hr. f_equal. now apply annualized_finite.
  - intros df close high low cs HC HH HL -> Hn. unfold statistics_historical_data.
    rewrite HC, HH, HL. cbn [option_map Standard_Deviation].
    f_equal. now apply std_finite.
  - intros df t rs Hin Hn. rewrite <- annualized_finite by exact Hn.
    now apply volatility_row.
Qed.

Lemma C6_sample_deviation_witness :
  option_map Volatility (statistics_historical_data pad example_table)
  = Some (Fin (sample_std [0; 0.10; -0.10] * sqrt 252 * 100)).
Proof.
  apply (proj1 (C6_sample_deviation (stable snd) pad) example_table
           [Fin 100; Fin 110; Fin 99] [Fin 101; Fin 111; Fin 110]
           [Fin 99; Fin 103; Fin 98] [0; 0.10; -0.10]);
    try reflexivity.
  - apply example_returns.
  - simpl. lia.
Defined.

(* ================================================================== *)
(** ** Correlation *)

Lemma corr_entry_sym cols i j : corr_entry cols i j = corr_entry cols j i.
Proof.
  unfold corr_entry.
  destruct (Nat.leb_spec j i), (Nat.leb_spec i j); try reflexivity; try lia.
  now replace j with i by lia.
Qed.

Lemma entry_corr df i j :
  (i < length (columns df))%nat -> (j < length (columns df))%nat ->
  entry (corr df) i j = corr_entry (columns df) i j.
Proof.
  intros Hi Hj. unfold entry, corr.
  set (n := length (columns df)) in *.
  set (row := fun i => (fst (nth i (columns df) (EmptyString, [])),
                         map (fun j => corr_entry (columns df) i j) (seq 0 n))).
  rewrite (nth_indep _ _ (row 0%nat)) by (now rewrite length_map, length_seq).
  rewrite (map_nth row), seq_nth by exact Hi. cbn [row snd Nat.add].
  rewrite (nth_indep _ _ (corr_entry (columns df) i 0%nat))
    by (now rewrite length_map, length_seq).
  rewrite (map_nth (fun j => corr_entry (columns df) i j)), seq_nth by exact Hj.
  reflexivity.
Qed.

Lemma entry_corr_outside df i j :
  (length (columns df) <= i)%nat \/ (length (columns df) <= j)%nat ->
  entry (corr df) i j = NaN.
Proof.
  intros H. unfold entry.
  destruct (Nat.lt_ge_cases i (length (columns df))) as [Hi | Hi].
  - destruct H as [H | Hj]; [lia |].
    apply nth_overflow. unfold corr.
    set (n := length (columns df)) in *.
    set (row := fun i => (fst (nth i (columns df) (EmptyString, [])),
                           map (fun j => corr_entry (columns df) i j) (seq 0 n))).
    rewrite (nth_indep _ _ (row 0%nat)) by (now rewrite length_map, length_seq).
    rewrite (map_nth row). cbn [row snd]. now rewrite length_map, length_seq.
  - rewrite (nth_overflow (corr df)); [now destruct j |].
    unfold corr. now rewrite length_map, length_seq.
Qed.

Lemma entry_corr_sym df i j : entry (corr df) i j = entry (corr df) j i.
Proof.
  destruct (Nat.lt_ge_cases i (length (columns df))) as [Hi | Hi];
    destruct (Nat.lt_ge_cases j (length (columns df))) as [Hj | Hj].
  - rewrite !entry_corr by assumption. apply corr_entry_sym.
  - rewrite !entry_corr_outside; auto.
  - rewrite !entry_corr_outside; auto.
  - rewrite !entry_corr_outside; auto.
Qed.

(** The observations of two finite columns of one length are all their
    rows. *)
Lemma observations_finite xs : forall ys,
  length xs = length ys ->
  let obs := filter (fun p => isfinite (fst p) && isfinite (snd p))
               (combine (map Fin xs) (map Fin ys)) in
  length obs = length xs
  /\ map (fun p => real_of (fst p)) obs = xs
  /\ map (fun p => real_of (snd p)) obs = ys.
Proof.
  induction xs as [| x xs IH]; intros [| y ys] Hlen; try discriminate.
  - repeat split.
  - injection Hlen as Hlen. destruct (IH ys Hlen) as (H1 & H2 & H3).
    cbn. repeat split; f_equal; assumption.
Qed.

Lemma pearson_finite xs ys :
  length xs = length ys -> xs <> [] ->
  pearson (map Fin xs) (map Fin ys)
  = if Req_dec_T (sqrt (codev xs xs * codev ys ys)) 0 then NaN
    else Fin (codev xs ys / sqrt (codev xs xs * codev ys ys)).
Proof.
  intros Hlen Hne. unfold pearson.
  destruct (observations_finite xs ys Hlen) as (H1 & H2 & H3).
  rewrite H1, H2, H3.
  destruct xs; [congruence | reflexivity].
Qed.

(** Sum of the products of the deviations from two given centres. *)
Lemma codev_opp_r mx xs :
  Rsum (map (fun p => (fst p - mx) * (snd p - - mx)) (combine xs (map Ropp xs)))
  = - Rsum (map (fun p => (fst p - mx) * (snd p - mx)) (combine xs xs)).
Proof.
  induction xs as [| x xs IH]; [simpl; lra |].
  cbn [map combine fst snd]. rewrite !Rsum_cons, IH. ring.
Qed.

Lemma codev_opp_l mx xs :
  Rsum (map (fun p => (fst p - - mx) * (snd p - mx)) (combine (map Ropp xs) xs))
  = - Rsum (map (fun p => (fst p - mx) * (snd p - mx)) (combine xs xs)).
Proof.
  induction xs as [| x xs IH]; [simpl; lra |].
  cbn [map combine fst snd]. rewrite !Rsum_cons, IH. ring.
Qed.

Lemma codev_opp_opp mx xs :
  Rsum (map (fun p => (fst p - - mx) * (snd p - - mx))
            (combine (map Ropp xs) (map Ropp xs)))
  = Rsum (map (fun p => (fst p - mx) * (snd p - mx)) (combine xs xs)).
Proof.
  induction xs as [| x xs IH]; [reflexivity |].
  cbn [map combine fst snd]. rewrite !Rsum_cons, IH. ring.
Qed.

Lemma Rsum_opp xs : Rsum (map Ropp xs) = - Rsum xs.
Proof.
  induction xs as [| x xs IH]; [simpl; lra |].
  cbn [map]. rewrite !Rsum_cons, IH. ring.
Qed.

Lemma Rmean_opp xs : Rmean (map Ropp xs) = - Rmean xs.
Proof.
  unfold Rmean. rewrite Rsum_opp, length_map. unfold Rdiv. ring.
Qed.

Lemma codev_self_squares xs :
  codev xs xs = Rsum (map (fun x => (x - Rmean xs) ^ 2) xs).
Proof.
  unfold codev. generalize (Rmean xs) as m. intros m.
  induction xs as [| x xs IH]; [reflexivity |].
  cbn [map combine fst snd]. rewrite !Rsum_cons, IH. ring.
Qed.

Lemma codev_self_nonneg xs : 0 <= codev xs xs.
Proof. rewrite codev_self_squares. apply Rsum_squares_nonneg. Qed.

Lemma sample_var_codev xs : sample_var xs <> 0 -> codev xs xs <> 0.
Proof.
  intros Hv Hc. apply Hv. unfold sample_var.
  rewrite <- codev_self_squares, Hc. unfold Rdiv. ring.
Qed.

Lemma sqrt_self_square c : 0 <= c -> sqrt (c * c) = c.
Proof. intros Hc. now apply sqrt_square. Qed.

Lemma pearson_identical xs :
  sample_var xs <> 0 -> pearson (map Fin xs) (map Fin xs) = Fin 1.
Proof.
  intros Hv. pose proof (sample_var_codev xs Hv) as Hc.
  pose proof (codev_self_nonneg xs) as Hpos.
  rewrite pearson_finite; [| reflexivity |].
  - rewrite sqrt_self_square by exact Hpos.
    destruct (Req_dec_T (codev xs xs) 0); [contradiction |].
    f_equal. now field.
  - intros ->. apply Hc. unfold codev. reflexivity.
Qed.

Lemma pearson_inverse xs :
  sample_var xs <> 0 ->
  pearson (map Fin xs) (map Fin (map Ropp xs)) = Fin (-1)
  /\ pearson (map Fin (map Ropp xs)) (map Fin xs) = Fin (-1).
Proof.
  intros Hv. pose proof (sample_var_codev xs Hv) as Hc.
  pose proof (codev_self_nonneg xs) as Hpos.
  assert (Hne : xs <> []) by (intros ->; apply Hc; reflexivity).
  assert (Hoo : codev (map Ropp xs) (map Ropp xs) = codev xs xs).
  { unfold codev. rewrite Rmean_opp. apply codev_opp_opp. }
  split.
  - rewrite pearson_finite; [| now rewrite length_map | exact Hne].
    rewrite Hoo, sqrt_self_square by exact Hpos.
    destruct (Req_dec_T (codev xs xs) 0); [contradiction |].
    f_equal. unfold codev at 1. rewrite Rmean_opp, codev_opp_r.
    fold (codev xs xs). now field.
  - rewrite pearson_finite;
      [| now rewrite length_map | destruct xs; [congruence | discriminate]].
    rewrite Hoo, sqrt_self_square by exact Hpos.
    destruct (Req_dec_T (codev xs xs) 0); [contradiction |].
    f_equal. unfold codev at 1. rewrite Rmean_opp, codev_opp_l.
    fold (codev xs xs). now field.
Qed.

Lemma pearson_flat xs ys :
  length xs = length ys -> codev xs xs = 0 ->
  pearson (map Fin xs) (map Fin ys) = NaN.
Proof.
  intros Hlen Hc. destruct xs as [| x xs].
  - destruct ys; [reflexivity | discriminate].
  - rewrite pearson_finite; [| exact Hlen | discriminate].
    rewrite Hc, Rmult_0_l, sqrt_0.
    destruct (Req_dec_T 0 0); [reflexivity | lra].
Qed.

Lemma column_at (cols : list (string * Series)) i t s :
  nth_error cols i = Some (t, s) ->
  (i < length cols)%nat /\ snd (nth i cols (EmptyString, [])) = s.
Proof.
  intros H. split.
  - apply nth_error_Some. congruence.
  - now rewrite (nth_error_nth _ _ _ H).
Qed.

Lemma corr_identical df i j ti tj xs :
  nth_error (columns df) i = Some (ti, map Fin xs) ->
  nth_error (columns df) j = Some (tj, map Fin xs) ->
  sample_var xs <> 0 ->
  entry (corr df) i j = Fin 1.
Proof.
  intros Hi Hj Hv.
  destruct (column_at _ _ _ _ Hi) as [Hil Hic].
  destruct (column_at _ _ _ _ Hj) as [Hjl Hjc].
  rewrite entry_corr by assumption. unfold corr_entry.
  rewrite Hic, Hjc. destruct (j <=? i)%nat; now apply pearson_identical.
Qed.

Lemma corr_inverse df i j ti tj xs :
  nth_error (columns df) i = Some (ti, map Fin xs) ->
  nth_error (columns df) j = Some (tj, map Fin (map Ropp xs)) ->
  sample_var xs <> 0 ->
  entry (corr df) i j = Fin (-1).
Proof.
  intros Hi Hj Hv.
  destruct (column_at _ _ _ _ Hi) as [Hil Hic].
  destruct (column_at _ _ _ _ Hj) as [Hjl Hjc].
  rewrite entry_corr by assumption. unfold corr_entry.
  rewrite Hic, Hjc. destruct (pearson_inverse xs Hv) as [H1 H2].
  destruct (j <=? i)%nat; assumption.
Qed.

Lemma corr_flat df i j ti tj xs :
  nth_error (columns df) i = Some (ti, map Fin xs) ->
  nth_error (columns df) j = Some (tj, map Fin xs) ->
  codev xs xs = 0 ->
  entry (corr df) i j = NaN.
Proof.
  intros Hi Hj Hc.
  destruct (column_at _ _ _ _ Hi) as [Hil Hic].
  destruct (column_at _ _ _ _ Hj) as [Hjl Hjc].
  rewrite entry_corr by assumption. unfold corr_entry.
  rewrite Hic, Hjc. destruct (j <=? i)%nat; now apply pearson_flat.
Qed.

Lemma example_variance : sample_var [0; 0.10; -0.10] <> 0.
Proof.
  unfold sample_var, Rmean, Rsum. cbn [map fold_right length INR]. lra.
Qed.

(** C8 (as amended): the correlation matrix is symmetric; on a finite
    series of nonzero variance the diagonal entry is 1, two tickers with
    that same series have correlation 1, and two tickers with that series
    and its opposite have correlation -1. *)
Theorem C8_correlation df :
  (forall i j, entry (corr df) i j = entry (corr df) j i)
  /\ (forall i ticker xs,
        nth_error (columns df) i = Some (ticker, map Fin xs) ->
        sample_var xs <> 0 ->
        entry (corr df) i i = Fin 1)
  /\ (forall i j ti tj xs,
        nth_error (columns df) i = Some (ti, map Fin xs) ->
        nth_error (columns df) j = Some (tj, map Fin xs) ->
        sample_var xs <> 0 ->
        entry (corr df) i j = Fin 1)
  /\ (forall i j ti tj xs,
        nth_error (columns df) i = Some (ti, map Fin xs) ->
        nth_error (columns df) j = Some (tj, map Fin (map Ropp xs)) ->
        sample_var xs <> 0 ->
        entry (corr df) i j = Fin (-1)).
Proof.
  split; [| split; [| split]].
  - apply entry_corr_sym.
  - intros i t xs Hi Hv. now apply (corr_identical df i i t t xs).
  - apply corr_identical.
  - apply corr_inverse.
Qed.

Lemma C8_correlation_witness :
  entry (corr inverse_returns_frame) 0 1 = Fin (-1).
Proof.
  apply (proj2 (proj2 (proj2 (C8_correlation inverse_returns_frame)))
           0%nat 1%nat "PETR4.SA" "VALE3.SA" [0; 0.10; -0.10]).
  - reflexivity.
  - reflexivity.
  - apply example_variance.
Defined.

(** C8 (as stated) fails: two tickers with the same series of no variance
    have no correlation at all. *)
Lemma C8_flat_series_uncorrelated :
  ~ identical_series_correlate flat_returns_frame.
Proof.
  intros H.
  specialize (H 0%nat 1%nat "PETR4.SA" "VALE3.SA" (map Fin [0; 0; 0]) eq_refl eq_refl).
  rewrite (corr_flat flat_returns_frame 0 1 "PETR4.SA" "VALE3.SA" [0; 0; 0]) in H.
  - discriminate H.
  - reflexivity.
  - reflexivity.
  - unfold codev, Rmean, Rsum. cbn [map combine fold_right length INR fst snd]. lra.
Qed.

(* ================================================================== *)
(** ** Rounding *)

Lemma Int_part_le x y : x <= y -> (Int_part x <= Int_part y)%Z.
Proof.
  intros Hxy.
  destruct (base_Int_part x) as [Hx1 Hx2], (base_Int_part y) as [Hy1 Hy2].
  assert (H : (Int_part x < Int_part y + 1)%Z).
  { apply lt_IZR. rewrite plus_IZR. lra. }
  lia.
Qed.

Lemma rint_bounds x : (Int_part x <= rint x <= Int_part x + 1)%Z.
Proof.
  unfold rint.
  destruct (Rlt_dec (x - IZR (Int_part x)) (1 / 2)); [lia |].
  destruct (Rlt_dec (1 / 2) (x - IZR (Int_part x))); [lia |].
  destruct (Z.even (Int_part x)); lia.
Qed.

Lemma rint_le x y : x <= y -> (rint x <= rint y)%Z.
Proof.
  intros Hxy. pose proof (Int_part_le x y Hxy) as Hn.
  destruct (Z.eq_dec (Int_part x) (Int_part y)) as [E | E].
  - unfold rint. rewrite <- E.
    destruct (Rlt_dec (x - IZR (Int_part x)) (1 / 2)),
             (Rlt_dec (y - IZR (Int_part x)) (1 / 2)),
             (Rlt_dec (1 / 2) (x - IZR (Int_part x))),
             (Rlt_dec (1 / 2) (y - IZR (Int_part x))),
             (Z.even (Int_part x));
      try lia; exfalso; lra.
  - pose proof (rint_bounds x). pose proof (rint_bounds y). lia.
Qed.

Lemma round2_le x y :
  x <= y -> IZR (rint (x * 100)) / 100 <= IZR (rint (y * 100)) / 100.
Proof.
  intros Hxy. assert (H : (rint (x * 100) <= rint (y * 100))%Z).
  { apply rint_le. lra. }
  apply IZR_le in H. lra.
Qed.

Lemma round2_isna a : isna (round2 a) = isna a.
Proof. destruct a; reflexivity. Qed.

Lemma round2_fleb a b : fleb a b = true -> fleb (round2 a) (round2 b) = true.
Proof.
  destruct a as [| | | x], b as [| | | y]; simpl; try congruence.
  destruct (Rle_dec x y) as [Hxy | ]; [| discriminate]. intros _.
  pose proof (round2_le x y Hxy).
  destruct (Rle_dec (IZR (rint (x * 100)) / 100) (IZR (rint (y * 100)) / 100));
    [reflexivity | contradiction].
Qed.

Lemma round2_desc a b : desc a b -> desc (round2 a) (round2 b).
Proof.
  intros [H | H]; [left | right].
  - now rewrite round2_isna.
  - now apply round2_fleb.
Qed.

Lemma rint_small r : - (1 / 2) < r < 1 / 2 -> rint r = 0%Z.
Proof.
  intros [Hlo Hhi]. unfold rint.
  destruct (Rle_dec 0 r) as [Hpos | Hneg].
  - rewrite <- (Int_part_spec r 0) by (simpl; lra).
    simpl. destruct (Rlt_dec (r - 0) (1 / 2)); [reflexivity | lra].
  - rewrite <- (Int_part_spec r (-1)) by (simpl; lra).
    simpl. destruct (Rlt_dec (r - -1) (1 / 2)); [lra |].
    destruct (Rlt_dec (1 / 2) (r - -1)); [reflexivity | lra].
Qed.

Lemma round2_small x : - 0.005 < x < 0.005 -> round2 (Fin x) = Fin 0.
Proof.
  intros H. cbn [round2]. rewrite rint_small by lra. f_equal. simpl. lra.
Qed.

(* ================================================================== *)
(** ** The ranking tables *)

Lemma Sorted_weaken {A} (R S : A -> A -> Prop) l :
  (forall a b, R a b -> S a b) -> Sorted R l -> Sorted S l.
Proof.
  intros HRS Hs. induction Hs as [| a l Hs IH Hhd]; constructor; [assumption |].
  destruct Hhd; constructor. now apply HRS.
Qed.

Lemma Sorted_app {A} (R : A -> A -> Prop) l1 l2 :
  Sorted R l1 -> Sorted R l2 ->
  (forall a b, In a l1 -> In b l2 -> R a b) -> Sorted R (l1 ++ l2).
Proof.
  intros H1 H2 Hcross. induction H1 as [| a l1 H1 IH Hhd]; [exact H2 |].
  cbn [app]. constructor.
  - apply IH. intros x y Hx Hy. apply Hcross; [now right | exact Hy].
  - destruct Hhd as [| b l1 Hab]; cbn [app].
    + destruct l2 as [| b l2]; constructor.
      apply Hcross; now left.
    + now constructor.
Qed.

Lemma Sorted_map {A B} (f : A -> B) (R : B -> B -> Prop) l :
  Sorted (fun a b => R (f a) (f b)) l -> Sorted R (map f l).
Proof.
  intros Hs. induction Hs as [| a l Hs IH Hhd]; cbn [map]; constructor;
    [assumption |].
  destruct Hhd; cbn [map]; now constructor.
Qed.

Lemma Sorted_all {A} (R : A -> A -> Prop) l :
  (forall a b, In b l -> R a b) -> Sorted R l.
Proof.
  intros H. induction l as [| a l IH]; constructor.
  - apply IH. intros x y Hy. apply H. now right.
  - destruct l as [| b l]; constructor. apply H. right. now left.
Qed.

Lemma sort_values_desc_sorted {A} {key : A -> fl} (kind : sort_kind key) rows :
  Sorted (fun a b => desc (key a) (key b)) (sort_values_desc kind rows).
Proof.
  unfold sort_values_desc. apply Sorted_app.
  - apply (Sorted_weaken (fun a b => asc key b a)).
    + intros a b Hab. now right.
    + apply Sorted_rev, argsort_sorted.
      apply Forall_forall. intros r Hr. apply in_rev, filter_In in Hr. tauto.
  - apply Sorted_all. intros a b Hb. apply filter_In in Hb. now left.
  - intros a b _ Hb. apply filter_In in Hb. now left.
Qed.

Lemma sorted_values_desc_values (kind : sort_kind snd) (rows : Labelled) :
  Sorted desc (map snd (sort_values_desc kind rows)).
Proof. apply Sorted_map, sort_values_desc_sorted. Qed.

Lemma rounded_values_sorted (rows : Labelled) :
  Sorted desc (map snd rows) -> Sorted desc (map snd (map_values round2 rows)).
Proof.
  intros Hs. unfold map_values. rewrite map_map. cbn [snd].
  rewrite <- (map_map snd round2).
  apply Sorted_map. revert Hs. apply Sorted_weaken. apply round2_desc.
Qed.

Lemma div_labelled_columns f g df :
  div_labelled (reduce_columns f df) (reduce_columns g df)
  = map (fun c => (fst c, fdiv (f (snd c)) (g (snd c)))) (columns df).
Proof.
  unfold div_labelled, reduce_columns.
  induction (columns df) as [| c cols IH]; [reflexivity |].
  cbn [map combine fst snd]. now rewrite IH.
Qed.

(** *** Rows without a value keep their order *)

Lemma fleb_refl a : notna a = true -> fleb a a = true.
Proof.
  destruct a as [| | | x]; simpl; intros H; try discriminate; try reflexivity.
  destruct (Rle_dec x x); [reflexivity | lra].
Qed.

Lemma filter_within {A} (p q : A -> bool) l :
  (forall r, p r = true -> q r = true) -> filter p (filter q l) = filter p l.
Proof.
  intros H. induction l as [| x l IH]; [reflexivity |].
  cbn [filter]. destruct (q x) eqn:Q.
  - cbn [filter]. now rewrite IH.
  - destruct (p x) eqn:P; [| exact IH]. rewrite (H x P) in Q. discriminate.
Qed.

Lemma filter_nothing {A} (p : A -> bool) l :
  (forall r, In r l -> p r = false) -> filter p l = [].
Proof.
  intros H. induction l as [| x l IH]; [reflexivity |].
  cbn [filter]. rewrite (H x) by now left.
  apply IH. intros r Hr. apply H. now right.
Qed.

(** The sort moves the rows that have a key only: the rows without one
    are where [sort_values] put them, in their original order. *)
Lemma sort_values_desc_missing {A} {key : A -> fl} (kind : sort_kind key) rows :
  filter (fun r => isna (key r)) (sort_values_desc kind rows)
  = filter (fun r => isna (key r)) rows.
Proof.
  unfold sort_values_desc. rewrite filter_app, filter_nothing.
  - cbn [app]. now apply filter_within.
  - intros r Hr. rewrite <- in_rev in Hr.
    apply (Permutation_in _ (argsort_permutes kind _)) in Hr.
    rewrite <- in_rev in Hr. apply filter_In in Hr. destruct Hr as [_ Hr].
    unfold notna in Hr. now destruct (isna (key r)).
Qed.

Lemma tickers_missing (rows : Labelled) :
  tickers_valued NaN rows = map fst (filter (fun r => isna (snd r)) rows).
Proof.
  reflexivity.
Qed.

Lemma sort_values_desc_tickers_missing (kind : sort_kind snd) (rows : Labelled) :
  tickers_valued NaN (sort_values_desc kind rows) = tickers_valued NaN rows.
Proof. now rewrite !tickers_missing, sort_values_desc_missing. Qed.

Lemma rounded_tickers_missing (rows : Labelled) :
  tickers_valued NaN (map_values round2 rows) = tickers_valued NaN rows.
Proof.
  rewrite !tickers_missing. unfold map_values.
  induction rows as [| [t v] rows IH]; [reflexivity |].
  cbn [map filter fst snd]. rewrite round2_isna.
  destruct (isna v); cbn [map fst]; now rewrite IH.
Qed.

(** Two rows of different keys: every sort puts the larger one first. *)
Lemma sort_two (kind : sort_kind snd) (s t : string) a b :
  a < b ->
  sort_values_desc kind [(s, Fin a); (t, Fin b)] = [(t, Fin b); (s, Fin a)].
Proof.
  intros Hab. unfold sort_values_desc. cbn [filter notna isna snd negb rev app].
  pose proof (argsort_permutes kind [(t, Fin b); (s, Fin a)]) as Hperm.
  pose proof (argsort_ascends kind [(t, Fin b); (s, Fin a)]) as Hasc.
  apply Permutation_sym, Permutation_length_2_inv in Hperm.
  destruct Hperm as [E | E]; rewrite E in *.
  - exfalso. specialize (Hasc ltac:(repeat constructor)).
    inversion Hasc as [| x l _ Hhd]; subst. inversion Hhd as [| y l' Hle]; subst.
    cbn in Hle. destruct (Rle_dec b a); [lra | discriminate].
  - reflexivity.
Qed.

Lemma tie_frame_ranking kind :
  df_stocks_returns_ranking kind tie_frame
  = [("VALE3.SA", Fin 0); ("PETR4.SA", Fin 0)].
Proof.
  assert (Hc : cumulative_returns tie_frame
               = [("PETR4.SA", Fin (compounded [0; 0.00001]));
                  ("VALE3.SA", Fin (compounded [0; 0.00004]))]).
  { rewrite cumulative_returns_columns, <- !cumulative_finite. reflexivity. }
  assert (Ha : compounded [0; 0.00001] = 0.001) by (unfold compounded; simpl; lra).
  assert (Hb : compounded [0; 0.00004] = 0.004) by (unfold compounded; simpl; lra).
  unfold df_stocks_returns_ranking. rewrite Hc, Ha, Hb, sort_two by lra.
  unfold map_values. cbn [map fst snd].
  rewrite !round2_small by lra. reflexivity.
Qed.

Lemma not_precedes_swapped (a b : string) : a <> b -> ~ precedes b a [a; b].
Proof.
  intros Hab (l1 & l2 & l3 & E).
  destruct l1 as [| x [| y l1]]; cbn in E.
  - injection E as E _. congruence.
  - injection E as _ E. destruct l2; discriminate E.
  - injection E as _ _ E. destruct l1; discriminate E.
Qed.

Lemma ranking_rows (kind : sort_kind snd) df :
  Permutation (df_stocks_returns_ranking kind df)
    (map (fun c => (fst c,
                    round2 (fmul (fsub (prod (radd (Fin 1) (snd c))) (Fin 1)) (Fin 100))))
         (columns df)).
Proof.
  unfold df_stocks_returns_ranking, map_values.
  rewrite (sort_values_desc_perm kind), cumulative_returns_columns, map_map.
  reflexivity.
Qed.

Lemma volatility_rows_sorted (kind : sort_kind snd) df :
  Permutation (df_annualized_volatility kind df) (volatility_rows df).
Proof. apply sort_values_desc_perm. Qed.

Lemma variation_rows_sorted (kind : sort_kind snd) df :
  Permutation (df_coefficient_variation kind df) (variation_rows df).
Proof. apply sort_values_desc_perm. Qed.

Lemma volatility_rows_columns df :
  volatility_rows df
  = map (fun c => (fst c,
                   round2 (fmul (fmul (std (snd c)) (Fin (Rpower 252 0.5))) (Fin 100))))
        (columns df).
Proof. unfold volatility_rows, map_values, reduce_columns. now rewrite !map_map. Qed.

Lemma variation_rows_columns df :
  variation_rows df
  = map (fun c => (fst c,
                   round2 (fmul (fdiv (std (snd c)) (mean (snd c))) (Fin 100))))
        (columns df).
Proof.
  unfold variation_rows, map_values. rewrite div_labelled_columns.
  now rewrite !map_map.
Qed.

Lemma ranking_labels (kind : sort_kind snd) df :
  Permutation (map fst (df_stocks_returns_ranking kind df)) (map fst (columns df)).
Proof. rewrite (ranking_rows kind), map_map. reflexivity. Qed.

Lemma volatility_labels (kind : sort_kind snd) df :
  Permutation (map fst (df_annualized_volatility kind df)) (map fst (columns df)).
Proof.
  rewrite (volatility_rows_sorted kind), volatility_rows_columns, map_map.
  reflexivity.
Qed.

Lemma variation_labels (kind : sort_kind snd) df :
  Permutation (map fst (df_coefficient_variation kind df)) (map fst (columns df)).
Proof.
  rewrite (variation_rows_sorted kind), variation_rows_columns, map_map.
  reflexivity.
Qed.

(** C2 (as amended): whatever sort numpy runs, each ranking table holds
    every ticker once, with the value computed for it, and is in
    descending order of the value it shows; the tickers without a value
    come last, in the order of their columns.
    [df_stocks_returns_ranking] sorts the cumulative returns before it
    rounds them, so that its order is that of the unrounded returns.  The
    order of tickers of equal key is the one the sort gives them. *)
Theorem C2_rankings_descend kind df :
  Sorted desc (map snd (df_stocks_returns_ranking kind df))
  /\ Sorted desc (map snd (df_annualized_volatility kind df))
  /\ Sorted desc (map snd (df_coefficient_variation kind df))
  /\ Permutation (map fst (df_stocks_returns_ranking kind df)) (map fst (columns df))
  /\ Permutation (map fst (df_annualized_volatility kind df)) (map fst (columns df))
  /\ Permutation (map fst (df_coefficient_variation kind df)) (map fst (columns df))
  /\ Permutation (df_annualized_volatility kind df) (volatility_rows df)
  /\ Permutation (df_coefficient_variation kind df) (variation_rows df)
  /\ (exists rows,
        Permutation rows (cumulative_returns df)
        /\ Sorted desc (map snd rows)
        /\ df_stocks_returns_ranking kind df = map_values round2 rows)
  /\ tickers_valued NaN (df_stocks_returns_ranking kind df)
     = tickers_valued NaN (cumulative_returns df)
  /\ tickers_valued NaN (df_annualized_volatility kind df)
     = tickers_valued NaN (volatility_rows df)
  /\ tickers_valued NaN (df_coefficient_variation kind df)
     = tickers_valued NaN (variation_rows df).
Proof.
  split; [apply rounded_values_sorted, sorted_values_desc_values |].
  split; [apply sorted_values_desc_values |].
  split; [apply sorted_values_desc_values |].
  split; [apply ranking_labels |].
  split; [apply volatility_labels |].
  split; [apply variation_labels |].
  split; [apply volatility_rows_sorted |].
  split; [apply variation_rows_sorted |].
  split.
  - exists (sort_values_desc kind (cumulative_returns df)).
    split; [apply sort_values_desc_perm |].
    split; [apply sorted_values_desc_values | reflexivity].
  - split; [| split].
    + unfold df_stocks_returns_ranking.
      now rewrite rounded_tickers_missing, sort_values_desc_tickers_missing.
    + apply sort_values_desc_tickers_missing.
    + apply sort_values_desc_tickers_missing.
Qed.

(** C2 (as stated) fails, and with a sort that keeps equal keys in order
    too: two tickers shown with the same rounded return come in the order
    of their unrounded returns, not of their columns. *)
Lemma C2_rounded_tie_out_of_order :
  ~ sorted_stable_ranking (df_stocks_returns_ranking (stable snd)) tie_frame.
Proof.
  intros [_ Hties]. rewrite tie_frame_ranking in Hties.
  apply (not_precedes_swapped "PETR4.SA" "VALE3.SA"); [discriminate |].
  apply (Hties "VALE3.SA" "PETR4.SA" (Fin 0)).
  exists [], [], []. reflexivity.
Qed.

(* ================================================================== *)
(** ** Totality *)

Lemma return_series_length fm price : length (return_series fm price) = length price.
Proof. unfold return_series. now rewrite fillna_length, pct_change_length. Qed.

Lemma df_returns_shape fm df : shape (df_returns fm df) = shape df.
Proof.
  rewrite df_returns_columns. unfold shape, apply_columns. cbn [index columns fst snd].
  f_equal. rewrite map_map. apply map_ext. intros c. cbn [fst snd].
  now rewrite return_series_length.
Qed.

Lemma df_stocks_returns_period_shape df : shape (df_stocks_returns_period df) = shape df.
Proof.
  unfold shape. rewrite period_columns. f_equal.
  rewrite map_map. apply map_ext. intros c. cbn [fst snd].
  now rewrite period_column_length.
Qed.

Lemma mean_finite xs : xs <> [] -> mean (map Fin xs) = Fin (Rmean xs).
Proof.
  intros Hne. unfold mean. rewrite count_finite, sum_finite.
  destruct xs as [| x xs]; [congruence |].
  cbn [length]. assert (H : INR (S (length xs)) <> 0) by (apply not_0_INR; lia).
  cbn [fdiv]. destruct (Req_dec_T (INR (S (length xs))) 0); [contradiction | reflexivity].
Qed.

(** A standard deviation divided by a mean of zero: no error, and no
    number either, but NaN or an infinity. *)
Lemma variation_at_zero_mean a :
  isfinite (fmul (fdiv a (Fin 0)) (Fin 100)) = false.
Proof.
  destruct a as [| | | x]; cbn [fdiv].
  - reflexivity.
  - destruct (Rlt_dec 0 0); [lra |]. cbn. unfold scale_inf. rdec. reflexivity.
  - destruct (Rlt_dec 0 0); [lra |]. cbn. unfold scale_inf. rdec. reflexivity.
  - destruct (Req_dec_T 0 0); [| lra]. unfold scale_inf.
    destruct (Req_dec_T x 0); [reflexivity |].
    destruct (Rlt_dec 0 x); cbn; unfold scale_inf; rdec; reflexivity.
Qed.

Lemma round2_isfinite a : isfinite (round2 a) = isfinite a.
Proof. destruct a; reflexivity. Qed.

(** The row [df_coefficient_variation] gives a ticker whose closes have a
    mean of zero: the division is done, and the row is there, without a
    number. *)
Lemma variation_row_at_zero_mean (kind : sort_kind snd) df ticker col :
  In (ticker, col) (columns df) -> mean col = Fin 0 ->
  exists v, In (ticker, v) (df_coefficient_variation kind df) /\ isfinite v = false.
Proof.
  intros Hin Hmean.
  exists (round2 (fmul (fdiv (std col) (mean col)) (Fin 100))). split.
  - eapply Permutation_in; [symmetry; apply variation_rows_sorted |].
    rewrite variation_rows_columns.
    apply (in_map (fun c => (fst c,
                             round2 (fmul (fdiv (std (snd c)) (mean (snd c))) (Fin 100))))
             _ (ticker, col)).
    exact Hin.
  - rewrite round2_isfinite, Hmean. apply variation_at_zero_mean.
Qed.

(** C9: on a table that has its Close, High and Low columns
    [statistics_historical_data] returns its bundle, and each function on
    frames returns the table of the values it computes: a frame of the
    shape of its input, column by column, or one row for each ticker.  The
    division by the mean of the closes is done for every ticker, a mean of
    zero giving NaN or an infinity in the bundle and in the row of the
    ticker, and no error. *)
Theorem C9_engine_total kind fm :
  (forall df_stock close high low,
     getitem df_stock "Close" = Some close ->
     getitem df_stock "High" = Some high ->
     getitem df_stock "Low" = Some low ->
     exists stats,
       statistics_historical_data fm df_stock = Some stats
       /\ Coefficient_Variation stats
          = fmul (fdiv (std close) (mean close)) (Fin 100)
       /\ (mean close = Fin 0 -> isfinite (Coefficient_Variation stats) = false))
  /\ (forall df,
        shape (df_returns fm df) = shape df
        /\ columns (df_returns fm df)
           = map (fun c => (fst c, return_series fm (snd c))) (columns df))
  /\ (forall df,
        shape (df_stocks_returns_period df) = shape df
        /\ columns (df_stocks_returns_period df)
           = map (fun c => (fst c, period_column (snd c))) (columns df))
  /\ (forall df,
        Permutation (df_stocks_returns_ranking kind df)
          (map (fun c => (fst c,
                          round2 (fmul (fsub (prod (radd (Fin 1) (snd c))) (Fin 1))
                                       (Fin 100))))
               (columns df)))
  /\ (forall df,
        Permutation (df_annualized_volatility kind df)
          (map (fun c => (fst c,
                          round2 (fmul (fmul (std (snd c)) (Fin (Rpower 252 0.5)))
                                       (Fin 100))))
               (columns df)))
  /\ (forall df,
        Permutation (df_coefficient_variation kind df)
          (map (fun c => (fst c,
                          round2 (fmul (fdiv (std (snd c)) (mean (snd c))) (Fin 100))))
               (columns df)))
  /\ (forall df ticker col,
        In (ticker, col) (columns df) -> mean col = Fin 0 ->
        exists v,
          In (ticker, v) (df_coefficient_variation kind df) /\ isfinite v = false).
Proof.
  split; [| split; [| split; [| split; [| split; [| split]]]]].
  - intros df close high low HC HH HL. unfold statistics_historical_data.
    rewrite HC, HH, HL. eexists. split; [reflexivity |].
    cbn [Coefficient_Variation]. split; [reflexivity |].
    intros ->. apply variation_at_zero_mean.
  - intros df. split; [apply df_returns_shape |].
    rewrite df_returns_columns. reflexivity.
  - intros df. split; [apply df_stocks_returns_period_shape | apply period_columns].
  - apply ranking_rows.
  - intros df. rewrite <- volatility_rows_columns. apply volatility_rows_sorted.
  - intros df. rewrite <- variation_rows_columns. apply variation_rows_sorted.
  - apply variation_row_at_zero_mean.
Qed.

Lemma zero_mean_example : mean (map Fin [-1; 1]) = Fin 0.
Proof. unfold mean. fl_eval. apply f_equal. lra. Qed.

Lemma C9_engine_total_witness :
  (exists stats,
     statistics_historical_data pad zero_mean_table = Some stats
     /\ isfinite (Coefficient_Variation stats) = false)
  /\ (exists v,
        In ("PETR4.SA", v) (df_coefficient_variation (stable snd) zero_mean_frame)
        /\ isfinite v = false).
Proof.
  destruct (C9_engine_total (stable snd) pad) as (Hstats & _ & _ & _ & _ & _ & Hrow).
  split.
  - destruct (Hstats zero_mean_table (map Fin [-1; 1]) (map Fin [-1; 1])
                (map Fin [-1; 1]) eq_refl eq_refl eq_refl) as (stats & Hs & _ & Hzero).
    exists stats. split; [exact Hs | exact (Hzero zero_mean_example)].
  - apply (Hrow zero_mean_frame "PETR4.SA" (map Fin [-1; 1]));
      [now left | exact zero_mean_example].
Defined.

(* ================================================================== *)
(** ** The model on small inputs *)

Example pct_change_pad_fills :
  pct_change pad [Fin 10; NaN; Fin 12] = [NaN; Fin 0; Fin (2 / 10)].
Proof. fl_eval; fin_eq. Qed.

Example pct_change_no_fill_propagates :
  pct_change no_fill [Fin 10; NaN; Fin 12] = [NaN; NaN; NaN].
Proof. reflexivity. Qed.

Example pct_change_from_zero :
  return_series no_fill [Fin 0; Fin 5; Fin 0; Fin 0] = [Fin 0; PInf; Fin (-1); Fin 0].
Proof. fl_eval; fin_eq. Qed.

Example cumprod_skips_missing :
  cumprod [Fin 2; NaN; Fin 3] = [Fin 2; NaN; Fin 6].
Proof. fl_eval; fin_eq. Qed.

Example prod_skips_missing : prod [Fin 2; NaN; Fin 3] = Fin 6.
Proof. fl_eval; fin_eq. Qed.

Example median_odd : median [Fin 3; NaN; Fin 1; Fin 2] = Fin 2.
Proof. unfold median. fl_eval; fin_eq. Qed.

Example median_even : median [Fin 4; Fin 1; Fin 3; Fin 2] = Fin (5 / 2).
Proof. unfold median. fl_eval; fin_eq. Qed.

Example max_min_skip_missing :
  max [Fin 3; NaN; Fin 7; Fin 5] = Fin 7 /\ min [Fin 3; NaN; Fin 7; Fin 2] = Fin 2.
Proof. split; [unfold max | unfold min]; fl_eval; fin_eq. Qed.

Example sort_values_desc_missing_last :
  sort_values_desc (stable snd) [("A", Fin 1); ("B", NaN); ("C", Fin 3); ("D", Fin 1)]
  = [("C", Fin 3); ("A", Fin 1); ("D", Fin 1); ("B", NaN)].
Proof. unfold sort_values_desc. fl_eval. reflexivity. Qed.

Example round2_half_even :
  round2 (Fin 0.125) = Fin 0.12 /\ round2 (Fin 0.375) = Fin 0.38.
Proof.
  split; cbn [round2]; unfold rint.
  - rewrite <- (Int_part_spec (0.125 * 100) 12) by (simpl; lra).
    simpl. rdec; try (f_equal; lra).
  - rewrite <- (Int_part_spec (0.375 * 100) 37) by (simpl; lra).
    simpl. rdec; try (f_equal; lra).
Qed.

(** The second ticker lacks the second date and has a date of its own:
    it is aligned on the dates of the first. *)
Example df_stocks_close_aligns :
  df_stocks_close
    (fun ticker _ =>
       if String.eqb ticker "PETR4.SA"
       then Some [(1, Fin 10); (2, Fin 11); (3, Fin 12)]%Z
       else Some [(1, Fin 20); (3, Fin 22); (4, Fin 23)]%Z)
    "1mo" ["PETR4.SA"; "VALE3.SA"]
  = Some (mkDataFrame [1; 2; 3]%Z
            [("PETR4.SA", [Fin 10; Fin 11; Fin 12]);
             ("VALE3.SA", [Fin 20; NaN; Fin 22])]).
Proof. reflexivity. Qed.

Example statistics_needs_close :
  statistics_historical_data pad (mkDataFrame [1%Z] [("High", [Fin 1]); ("Low", [Fin 1])])
  = None.
Proof. reflexivity. Qed.

Example main_draws_with_two :
  map (fun e => match e with Call f => f | Warning _ => "warning" | Stop => "stop"
                        | LineChart _ => "line_chart" | Heatmap _ => "heatmap"
                        | BarChart y _ => y end)
      (fst (main (stable snd) pad (fun _ _ => Some [(1%Z, Fin 10)]) "1y"
              ["PETR4.SA"; "VALE3.SA"]))
  = ["df_stocks_close"; "df_returns"; "df_stocks_returns_period";
     "df_stocks_returns_ranking"; "corr"; "df_annualized_volatility";
     "df_coefficient_variation"; "line_chart"; "heatmap"; "Cumulative Return";
     "Annualized Volatility"; "Coefficient Variation"].
Proof. reflexivity. Qed.

(* ================================================================== *)
(** ** The table of closing prices *)

Section CloseTable.
Variable history_close : string -> string -> option IndexedSeries.
Variable period : string.

Lemma close_loop_raised l :
  fold_left (close_step history_close period) l None = None.
Proof. induction l as [| t l IH]; [reflexivity | exact IH]. Qed.

Lemma close_loop_cons t l df :
  fold_left (close_step history_close period) (t :: l) (Some df)
  = match history_close t period with
    | None => None
    | Some s => fold_left (close_step history_close period) l (Some (setitem df t s))
    end.
Proof.
  cbn [fold_left close_step]. destruct (history_close t period); [reflexivity |].
  apply close_loop_raised.
Qed.

Lemma close_loop_succeeds l : forall df,
  (exists out, fold_left (close_step history_close period) l (Some df) = Some out)
  <-> Forall (fun t => history_close t period <> None) l.
Proof.
  induction l as [| t l IH]; intros df.
  - split; [constructor | intros _; now exists df].
  - rewrite close_loop_cons. destruct (history_close t period) as [s |] eqn:E.
    + rewrite IH. split.
      * intros H. constructor; [congruence | exact H].
      * intros H. now inversion H.
    + split.
      * intros [out H]. discriminate H.
      * intros H. inversion H; subst. congruence.
Qed.
End CloseTable.

Lemma assign_lookup_same name v cols : lookup_column name (assign name v cols) = Some v.
Proof.
  induction cols as [| [n s] cols IH]; cbn.
  - now rewrite String.eqb_refl.
  - destruct (String.eqb n name) eqn:E; cbn; rewrite E; [reflexivity | exact IH].
Qed.

Lemma assign_lookup_other name name' v cols :
  name' <> name -> lookup_column name' (assign name v cols) = lookup_column name' cols.
Proof.
  intros Hne. induction cols as [| [n s] cols IH]; cbn.
  - destruct (String.eqb_spec name name'); [congruence | reflexivity].
  - destruct (String.eqb_spec n name) as [-> | Hn]; cbn.
    + destruct (String.eqb_spec name name'); [congruence | reflexivity].
    + destruct (String.eqb n name'); [reflexivity | exact IH].
Qed.

Lemma assign_labels_new name v cols :
  ~ In name (map fst cols) -> map fst (assign name v cols) = (map fst cols ++ [name])%list.
Proof.
  induction cols as [| [n s] cols IH]; intros Hnot; [reflexivity |].
  cbn in Hnot |- *. destruct (String.eqb_spec n name) as [-> | Hn]; [tauto |].
  cbn. f_equal. apply IH. tauto.
Qed.

Lemma assign_labels_old name v cols :
  In name (map fst cols) -> map fst (assign name v cols) = map fst cols.
Proof.
  induction cols as [| [n s] cols IH]; intros Hin; [contradiction |].
  cbn in Hin |- *. destruct (String.eqb_spec n name) as [-> | Hn]; [reflexivity |].
  cbn. f_equal. apply IH. destruct Hin; [contradiction | assumption].
Qed.

Lemma assign_Forall (P : string * Series -> Prop) name v cols :
  Forall P cols -> (forall n, P (n, v)) -> Forall P (assign name v cols).
Proof.
  intros Hall Hv. induction Hall as [| [n s] cols Hc Hall IH]; cbn.
  - constructor; [apply Hv | constructor].
  - destruct (String.eqb n name); constructor; auto.
Qed.

Lemma setitem_rectangular df name s : rectangular df -> rectangular (setitem df name s).
Proof.
  intros Hr. unfold setitem, rectangular.
  set (df1 := match index df, s with
              | [], _ :: _ => mkDataFrame (map fst s)
                   (map (fun c => (fst c, repeat NaN (length s))) (columns df))
              | _, _ => df end).
  assert (H1 : rectangular df1).
  { subst df1. destruct (index df) eqn:Ei; [| exact Hr].
    destruct s as [| e s]; [exact Hr |].
    unfold rectangular. cbn [index columns]. apply Forall_forall.
    intros c Hc. apply in_map_iff in Hc. destruct Hc as [c' [<- _]].
    cbn [snd]. now rewrite repeat_length, length_map. }
  cbn [index columns]. apply assign_Forall; [exact H1 |].
  intros n. cbn [snd]. now rewrite length_map.
Qed.

Lemma first_dates_empty l : first_dates l = [] -> Forall (fun s => s = []) l.
Proof.
  induction l as [| s l IH]; intros H; [constructor |].
  destruct s as [| e s]; [constructor; [reflexivity | now apply IH] |].
  discriminate H.
Qed.

Lemma first_dates_snoc l s :
  first_dates (l ++ [s]) = match first_dates l with [] => map fst s | d => d end.
Proof.
  induction l as [| x l IH]; cbn.
  - destruct s; reflexivity.
  - destruct x as [| e x]; [exact IH | reflexivity].
Qed.

Lemma aligned_nothing dates : aligned dates [] = repeat NaN (length dates).
Proof.
  unfold aligned. induction dates as [| d dates IH]; [reflexivity |].
  cbn [map length repeat]. f_equal. exact IH.
Qed.

Lemma lookup_blanked name n cols v :
  lookup_column name cols = Some v ->
  lookup_column name (map (fun c => (fst c, repeat NaN n)) cols) = Some (repeat NaN n).
Proof.
  induction cols as [| [m s] cols IH]; cbn; [discriminate |].
  destruct (String.eqb m name); [reflexivity | exact IH].
Qed.

Lemma blanked_labels n (cols : list (string * Series)) :
  map fst (map (fun c => (fst c, repeat NaN n)) cols) = map fst cols.
Proof. rewrite map_map. now apply map_ext. Qed.

Lemma lookup_label name cols v :
  lookup_column name cols = Some v -> In name (map fst cols).
Proof.
  induction cols as [| [m c] cols IH]; cbn; [discriminate |].
  destruct (String.eqb_spec m name); [now left | right; now apply IH].
Qed.

Lemma setitem_holds df done t s :
  holds df done -> ~ In t (map fst done) ->
  holds (setitem df t s) (done ++ [(t, s)]).
Proof.
  intros (Hlab & Hidx & Hcols) Hnew. unfold holds, setitem.
  rewrite !map_app. cbn [map fst snd]. rewrite first_dates_snoc, <- Hidx.
  destruct (index df) as [| d0 dates] eqn:Ei.
  - destruct s as [| e s].
    + cbn [index columns map]. rewrite Ei. repeat split.
      * rewrite assign_labels_new by (now rewrite Hlab). now rewrite Hlab.
      * apply Forall_app. split.
        -- eapply Forall_impl; [| exact Hcols]. intros [t' s'] H. cbn [fst snd] in *.
           rewrite assign_lookup_other; [exact H |].
           intros ->. apply Hnew. rewrite <- Hlab. eapply lookup_label. exact H.
        -- constructor; [| constructor]. cbn [fst snd]. apply assign_lookup_same.
    + cbn [index columns]. repeat split.
      * rewrite assign_labels_new; rewrite blanked_labels, Hlab;
          [reflexivity | exact Hnew].
      * pose proof (first_dates_empty _ (eq_sym Hidx)) as Hempty.
        apply Forall_app. split.
        -- rewrite Forall_forall in Hcols, Hempty |- *. intros [t' s'] Hin.
           cbn [fst snd]. specialize (Hcols _ Hin). cbn [fst snd] in Hcols.
           assert (Hs : s' = []).
           { apply Hempty. apply (in_map snd) in Hin. exact Hin. }
           subst s'. rewrite assign_lookup_other.
           ++ rewrite aligned_nothing, length_map.
              eapply lookup_blanked. exact Hcols.
           ++ intros ->. apply Hnew. apply (in_map fst) in Hin. exact Hin.
        -- constructor; [| constructor]. cbn [fst snd]. apply assign_lookup_same.
  - cbn [index columns]. rewrite Ei. repeat split.
    + rewrite assign_labels_new by (now rewrite Hlab). now rewrite Hlab.
    + apply Forall_app. split.
      * rewrite Forall_forall in Hcols |- *. intros [t' s'] Hin.
        cbn [fst snd]. specialize (Hcols _ Hin). cbn [fst snd] in Hcols.
        rewrite assign_lookup_other; [exact Hcols |].
        intros ->. apply Hnew. apply (in_map fst) in Hin. exact Hin.
      * constructor; [| constructor]. cbn [fst snd]. apply assign_lookup_same.
Qed.

Section CloseTableLayout.
Variable history_close : string -> string -> option IndexedSeries.
Variable period : string.

Lemma close_loop_holds l : forall df done out,
  holds df done -> NoDup (map fst done ++ l) ->
  fold_left (close_step history_close period) l (Some df) = Some out ->
  holds out (done ++ map (fun t => (t, fetched history_close period t)) l).
Proof.
  induction l as [| t l IH]; intros df done out Hh Hnd Hout.
  - cbn in Hout. injection Hout as <-. now rewrite app_nil_r.
  - rewrite close_loop_cons in Hout.
    destruct (history_close t period) as [s |] eqn:E; [| discriminate].
    assert (Hnew : ~ In t (map fst done)).
    { apply NoDup_remove_2 in Hnd. intros Hin. apply Hnd. apply in_or_app. now left. }
    specialize (IH (setitem df t s) (done ++ [(t, s)])%list out
                  (setitem_holds df done t s Hh Hnew)).
    rewrite map_app, <- app_assoc in IH. cbn [map fst app] in IH.
    specialize (IH Hnd Hout). rewrite <- app_assoc in IH. cbn [app] in IH.
    cbn [map]. unfold fetched at 1. now rewrite E.
Qed.

Lemma close_loop_rectangular l : forall df out,
  rectangular df ->
  fold_left (close_step history_close period) l (Some df) = Some out ->
  rectangular out.
Proof.
  induction l as [| t l IH]; intros df out Hr Hout.
  - cbn in Hout. now injection Hout as <-.
  - rewrite close_loop_cons in Hout.
    destruct (history_close t period) as [s |]; [| discriminate].
    eapply IH; [| exact Hout]. now apply setitem_rectangular.
Qed.

Lemma close_table_layout stocks_list df :
  NoDup stocks_list ->
  df_stocks_close history_close period stocks_list = Some df ->
  holds df (map (fun t => (t, fetched history_close period t)) stocks_list).
Proof.
  intros Hnd Hdf.
  apply (close_loop_holds stocks_list empty_frame [] df); [| exact Hnd | exact Hdf].
  repeat split. constructor.
Qed.
End CloseTableLayout.

Lemma aligned_self (s : IndexedSeries) :
  NoDup (map fst s) -> aligned (map fst s) s = map snd s.
Proof.
  unfold aligned. induction s as [| [d v] s IH]; intros Hnd; [reflexivity |].
  cbn [map fst snd] in Hnd |- *. inversion Hnd as [| ? ? Hnot Hnd']; subst.
  cbn [at_date]. rewrite Z.eqb_refl. f_equal.
  rewrite <- (IH Hnd'). apply map_ext_in. intros d' Hd'.
  cbn [at_date]. destruct (Z.eqb_spec d d') as [-> | _]; [contradiction | reflexivity].
Qed.

(** X1: [df_stocks_close] returns a table exactly when the fetch of every
    ticker of the list succeeds; one failing ticker fails the whole call. *)
Theorem df_stocks_close_all_or_nothing history_close period stocks_list :
  (exists df, df_stocks_close history_close period stocks_list = Some df)
  <-> Forall (fun t => history_close t period <> None) stocks_list.
Proof. apply close_loop_succeeds. Qed.

(** X2: the table [df_stocks_close] returns has, in every column, one
    value for each date of its index. *)
Theorem df_stocks_close_rectangular history_close period stocks_list df :
  df_stocks_close history_close period stocks_list = Some df -> rectangular df.
Proof.
  intros H. eapply close_loop_rectangular; [| exact H]. constructor.
Qed.

Lemma df_stocks_close_rectangular_witness : rectangular example_close_table.
Proof.
  apply (df_stocks_close_rectangular example_fetch "1mo" ["PETR4.SA"; "VALE3.SA"]).
  reflexivity.
Defined.

(** X3: for a list of distinct tickers, the columns of the table are the
    tickers in the order of the list, its dates are those of the first
    ticker that has any, and the column of a ticker holds, at each date of
    the table, its close of that date, NaN where it has none. *)
Theorem df_stocks_close_layout history_close period stocks_list df :
  NoDup stocks_list ->
  df_stocks_close history_close period stocks_list = Some df ->
  map fst (columns df) = stocks_list
  /\ index df = first_dates (map (fetched history_close period) stocks_list)
  /\ forall t, In t stocks_list ->
       getitem df t = Some (aligned (index df) (fetched history_close period t)).
Proof.
  intros Hnd Hdf.
  destruct (close_table_layout _ _ _ _ Hnd Hdf) as (Hlab & Hidx & Hcols).
  rewrite !map_map in Hlab, Hidx. cbn [fst snd] in Hlab, Hidx.
  rewrite map_id in Hlab. repeat split; [exact Hlab | exact Hidx |].
  intros t Ht. rewrite Forall_forall in Hcols.
  apply (Hcols (t, fetched history_close period t)).
  apply (in_map (fun t => (t, fetched history_close period t))). exact Ht.
Qed.

Lemma df_stocks_close_layout_witness :
  map fst (columns example_close_table) = ["PETR4.SA"; "VALE3.SA"]
  /\ index example_close_table
     = first_dates (map (fetched example_fetch "1mo") ["PETR4.SA"; "VALE3.SA"])
  /\ forall t, In t ["PETR4.SA"; "VALE3.SA"] ->
       getitem example_close_table t
       = Some (aligned (index example_close_table) (fetched example_fetch "1mo" t)).
Proof.
  apply (df_stocks_close_layout example_fetch "1mo" ["PETR4.SA"; "VALE3.SA"]).
  - repeat constructor; simpl; intuition discriminate.
  - reflexivity.
Defined.

(** X4: a ticker whose fetched dates are distinct and are the dates of
    the table keeps, in its column, its closes as they were fetched. *)
Theorem df_stocks_close_keeps_closes history_close period stocks_list df t :
  NoDup stocks_list ->
  df_stocks_close history_close period stocks_list = Some df ->
  In t stocks_list ->
  NoDup (map fst (fetched history_close period t)) ->
  map fst (fetched history_close period t) = index df ->
  getitem df t = Some (map snd (fetched history_close period t)).
Proof.
  intros Hnd Hdf Ht Hdates Hsame.
  destruct (close_table_layout _ _ _ _ Hnd Hdf) as (_ & _ & Hcols).
  rewrite Forall_forall in Hcols.
  specialize (Hcols (t, fetched history_close period t)
                (in_map (fun t => (t, fetched history_close period t)) _ _ Ht)).
  cbn [fst snd] in Hcols. unfold getitem. rewrite Hcols, <- Hsame.
  now rewrite aligned_self.
Qed.

Lemma df_stocks_close_keeps_closes_witness :
  getitem example_close_table "PETR4.SA" = Some [Fin 10; Fin 11; Fin 12].
Proof.
  apply (df_stocks_close_keeps_closes example_fetch "1mo" ["PETR4.SA"; "VALE3.SA"]
           example_close_table "PETR4.SA").
  - repeat constructor; simpl; intuition discriminate.
  - reflexivity.
  - now left.
  - repeat constructor; simpl; intuition discriminate.
  - reflexivity.
Defined.

(* ================================================================== *)
(** ** Returns of a series of prices *)

Lemma ffill_from_finite xs : forall last, ffill_from last (map Fin xs) = map Fin xs.
Proof.
  induction xs as [| x xs IH]; intros last; [reflexivity |].
  cbn. now rewrite IH.
Qed.

Lemma combine_removelast (s : Series) : forall prev,
  combine s (removelast (prev :: s)) = pairs_from prev s.
Proof.
  induction s as [| x s IH]; intros prev; [reflexivity |].
  change (removelast (prev :: x :: s)) with (prev :: removelast (x :: s)).
  cbn [combine pairs_from]. now rewrite IH.
Qed.

Lemma filled_pairs_finite ps : forall prev,
  prev <> 0 -> Forall (fun p => p <> 0) ps ->
  fillna (Fin 0)
    (map (fun p => fsub (fdiv (fst p) (snd p)) (Fin 1))
         (pairs_from (Fin prev) (map Fin ps)))
  = map Fin (ratios_from prev ps).
Proof.
  unfold fillna.
  induction ps as [| p ps IH]; intros prev Hprev Hall; [reflexivity |].
  inversion Hall; subst. cbn [map pairs_from ratios_from fst snd].
  rewrite IH by assumption.
  cbn. destruct (Req_dec_T prev 0); [contradiction | reflexivity].
Qed.

Lemma return_series_finite fm ps :
  Forall (fun p => p <> 0) ps ->
  return_series fm (map Fin ps) = map Fin (ratios ps).
Proof.
  intros Hall. unfold return_series, pct_change.
  assert (Hd : match fm with pad => ffill (map Fin ps) | no_fill => map Fin ps end
               = map Fin ps).
  { destruct fm; [apply ffill_from_finite | reflexivity]. }
  rewrite Hd. destruct ps as [| p ps]; [reflexivity |].
  inversion Hall; subst. unfold shift. cbn [map combine].
  rewrite combine_removelast.
  pose proof (filled_pairs_finite ps p H1 H2) as Hrest. unfold fillna in Hrest |- *.
  cbn [map fst snd ratios]. rewrite Hrest. reflexivity.
Qed.

Lemma Rprod_cons x l : Rprod (x :: l) = x * Rprod l.
Proof. reflexivity. Qed.

Lemma ratios_from_scaled c ps : forall prev,
  c <> 0 -> prev <> 0 -> Forall (fun p => p <> 0) ps ->
  ratios_from (c * prev) (map (Rmult c) ps) = ratios_from prev ps.
Proof.
  induction ps as [| p ps IH]; intros prev Hc Hprev Hall; [reflexivity |].
  inversion Hall; subst. cbn [map ratios_from]. rewrite IH by assumption.
  f_equal. now field.
Qed.

Lemma scaled_nonzero c ps :
  c <> 0 -> Forall (fun p => p <> 0) ps -> Forall (fun p => p <> 0) (map (Rmult c) ps).
Proof.
  intros Hc Hall. apply Forall_forall. intros x Hx.
  apply in_map_iff in Hx. destruct Hx as [p [<- Hp]].
  rewrite Forall_forall in Hall. specialize (Hall p Hp). nra.
Qed.

(** X5: a rescaling of the prices of a column (another currency or unit)
    leaves its return series unchanged, the prices being numbers other
    than zero. *)
Theorem returns_scale_invariant fm c ps :
  c <> 0 -> Forall (fun p => p <> 0) ps ->
  return_series fm (map Fin (map (Rmult c) ps)) = return_series fm (map Fin ps).
Proof.
  intros Hc Hall.
  rewrite !return_series_finite by (try apply scaled_nonzero; assumption).
  f_equal. destruct ps as [| p ps]; [reflexivity |].
  inversion Hall; subst. cbn [map ratios]. f_equal.
  now apply ratios_from_scaled.
Qed.

Lemma returns_scale_invariant_witness :
  return_series pad (map Fin (map (Rmult 5) [100; 110; 99]))
  = return_series pad (map Fin [100; 110; 99]).
Proof.
  apply (returns_scale_invariant pad 5 [100; 110; 99]).
  - lra.
  - repeat constructor; lra.
Defined.

(* ================================================================== *)
(** ** A price that does not move *)

Lemma ratios_from_flat p n : p <> 0 -> ratios_from p (repeat p n) = repeat 0 n.
Proof.
  intros Hp. induction n as [| n IH]; [reflexivity |].
  cbn [repeat ratios_from]. rewrite IH. f_equal. now field.
Qed.

Lemma ratios_flat p n : p <> 0 -> ratios (repeat p n) = repeat 0 n.
Proof.
  intros Hp. destruct n as [| n]; [reflexivity |].
  cbn [repeat ratios]. now rewrite ratios_from_flat.
Qed.

Lemma Rsum_map_repeat (f : R -> R) x n : Rsum (map f (repeat x n)) = INR n * f x.
Proof.
  induction n as [| n IH]; [cbn; lra |].
  cbn [repeat map]. rewrite Rsum_cons, IH, S_INR. ring.
Qed.

Lemma Rmean_repeat x n : (1 <= n)%nat -> Rmean (repeat x n) = x.
Proof.
  intros Hn. unfold Rmean. rewrite repeat_length.
  rewrite <- (map_id (repeat x n)), (Rsum_map_repeat (fun y => y)).
  assert (H : INR n <> 0) by (apply not_0_INR; lia). now field.
Qed.

Lemma sample_std_flat x n : (1 <= n)%nat -> sample_std (repeat x n) = 0.
Proof.
  intros Hn. unfold sample_std, sample_var.
  rewrite Rmean_repeat by exact Hn.
  rewrite (Rsum_map_repeat (fun y => (y - x) ^ 2)).
  replace (INR n * (x - x) ^ 2 / (INR (length (repeat x n)) - 1)) with 0
    by (unfold Rdiv; ring).
  apply sqrt_0.
Qed.

Lemma insert_flat (a : fl) n :
  notna a = true -> insert (fun x => x) a (repeat a n) = repeat a (S n).
Proof.
  intros Ha. destruct n as [| n]; [reflexivity |].
  cbn [repeat insert]. now rewrite fleb_refl.
Qed.

Lemma insertion_sort_flat (a : fl) n :
  notna a = true -> insertion_sort (fun x => x) (repeat a n) = repeat a n.
Proof.
  intros Ha. induction n as [| n IH]; [reflexivity |].
  cbn [repeat insertion_sort]. rewrite IH. now apply insert_flat.
Qed.

Lemma median_flat p n : (1 <= n)%nat -> median (repeat (Fin p) n) = Fin p.
Proof.
  intros Hn. unfold median.
  assert (Hf : filter notna (repeat (Fin p) n) = repeat (Fin p) n).
  { clear. induction n as [| n IH]; [reflexivity |]. cbn. now rewrite IH. }
  rewrite Hf, insertion_sort_flat, repeat_length by reflexivity.
  destruct n as [| n]; [lia |].
  assert (Hhalf : (S n / 2 < S n)%nat) by (apply Nat.div_lt; lia).
  destruct (Nat.odd (S n)).
  - now rewrite nth_repeat_lt.
  - rewrite !nth_repeat_lt by lia. cbn. rdec. apply f_equal. lra.
Qed.

(** X8: on a table of at least two bars that all close at the same price,
    other than zero, the volatility and the cumulative return are 0 and
    the median is that price: each return is the quotient of a price by
    itself, less one. *)
Theorem flat_prices_statistics fm df_stock high low p n :
  getitem df_stock "Close" = Some (repeat (Fin p) n) ->
  getitem df_stock "High" = Some high ->
  getitem df_stock "Low" = Some low ->
  p <> 0 -> (2 <= n)%nat ->
  exists stats,
    statistics_historical_data fm df_stock = Some stats
    /\ Volatility stats = Fin 0
    /\ Cumulative_Return stats = Fin 0
    /\ Median_Price stats = Fin p.
Proof.
  intros HC HH HL Hp Hn. unfold statistics_historical_data.
  rewrite HC, HH, HL. eexists. split; [reflexivity |].
  cbn [Volatility Cumulative_Return Median_Price].
  fold (return_series fm (repeat (Fin p) n)).
  rewrite <- (map_repeat p n Fin).
  rewrite return_series_finite
    by (apply Forall_forall; intros x Hx; apply repeat_spec in Hx; now subst).
  rewrite ratios_flat by exact Hp.
  assert (Hstd : std (map Fin (repeat 0 n)) = Fin 0).
  { rewrite std_finite by (now rewrite repeat_length).
    now rewrite sample_std_flat by lia. }
  rewrite Hstd, cumulative_finite. split; [| split].
  - cbn. f_equal. lra.
  - f_equal. unfold compounded.
    assert (H1 : Rprod (map (fun r => 1 + r) (repeat 0 n)) = 1).
    { clear. induction n as [| n IH]; [reflexivity |].
      cbn [repeat map]. rewrite Rprod_cons, IH. ring. }
    rewrite H1. ring.
  - rewrite (map_repeat p n Fin). apply median_flat. lia.
Qed.

Lemma flat_prices_statistics_witness :
  exists stats,
    statistics_historical_data pad
      (mkDataFrame [1; 2; 3]%Z
         [("High", repeat (Fin 10) 3); ("Low", repeat (Fin 10) 3);
          ("Close", repeat (Fin 10) 3)]) = Some stats
    /\ Volatility stats = Fin 0
    /\ Cumulative_Return stats = Fin 0
    /\ Median_Price stats = Fin 10.
Proof.
  apply (flat_prices_statistics pad _ (repeat (Fin 10) 3) (repeat (Fin 10) 3) 10 3);
    try reflexivity; [lra | lia].
Defined.

(* ================================================================== *)
(** ** The range of a correlation *)

Section CauchySchwarz.
Variables f g : R * R -> R.

Lemma sum_squares_nonneg (h : R * R -> R) l : 0 <= Rsum (map (fun p => h p * h p) l).
Proof.
  induction l as [| p l IH]; [cbn; lra |].
  cbn [map]. rewrite Rsum_cons. nra.
Qed.

Lemma cross_term_bound A B C a b :
  0 <= A -> 0 <= B -> C * C <= A * B -> 2 * C * (a * b) <= A * (b * b) + B * (a * a).
Proof.
  intros HA HB HC.
  destruct (Req_dec_T A 0) as [-> | HA0].
  - assert (HC0 : C * C = 0).
    { pose proof (Rle_0_sqr C) as Hs. unfold Rsqr in Hs. lra. }
    assert (C = 0) by (apply Rmult_integral in HC0; tauto). subst C.
    pose proof (Rle_0_sqr a) as Ha. unfold Rsqr in Ha. nra.
  - assert (H1 : 0 <= (A * b - C * a) * (A * b - C * a)) by apply Rle_0_sqr.
    assert (H2 : 0 <= (a * a) * (A * B - C * C)).
    { apply Rmult_le_pos; [apply Rle_0_sqr | lra]. }
    assert (H3 : 0 <= A * (A * (b * b) + B * (a * a) - 2 * C * (a * b))).
    { replace (A * (A * (b * b) + B * (a * a) - 2 * C * (a * b)))
        with ((A * b - C * a) * (A * b - C * a) + (a * a) * (A * B - C * C)) by ring.
      lra. }
    assert (HApos : 0 < A) by lra.
    assert (H4 : 0 <= A * (b * b) + B * (a * a) - 2 * C * (a * b)).
    { apply Rmult_le_reg_l with A; [exact HApos |]. now rewrite Rmult_0_r. }
    lra.
Qed.

Lemma cauchy_schwarz l :
  Rsum (map (fun p => f p * g p) l) * Rsum (map (fun p => f p * g p) l)
  <= Rsum (map (fun p => f p * f p) l) * Rsum (map (fun p => g p * g p) l).
Proof.
  induction l as [| p l IH]; [cbn; lra |].
  cbn [map]. rewrite !Rsum_cons.
  pose proof (sum_squares_nonneg f l) as HA.
  pose proof (sum_squares_nonneg g l) as HB.
  pose proof (cross_term_bound _ _ _ (f p) (g p) HA HB IH) as Hx.
  nra.
Qed.
End CauchySchwarz.

Lemma codev_left m m' xs : forall ys,
  length xs = length ys ->
  Rsum (map (fun p => (fst p - m) * (snd p - m')) (combine xs xs))
  = Rsum (map (fun p : R * R => (fst p - m) * (fst p - m')) (combine xs ys)).
Proof.
  induction xs as [| x xs IH]; intros [| y ys] H; try discriminate; [reflexivity |].
  cbn [combine map fst snd]. rewrite !Rsum_cons, (IH ys) by (now injection H).
  reflexivity.
Qed.

Lemma codev_right m m' ys : forall xs,
  length xs = length ys ->
  Rsum (map (fun p => (fst p - m) * (snd p - m')) (combine ys ys))
  = Rsum (map (fun p : R * R => (snd p - m) * (snd p - m')) (combine xs ys)).
Proof.
  induction ys as [| y ys IH]; intros [| x xs] H; try discriminate; [reflexivity |].
  cbn [combine map fst snd]. rewrite !Rsum_cons, (IH xs) by (now injection H).
  reflexivity.
Qed.

Lemma codev_bound xs ys :
  length xs = length ys ->
  codev xs ys * codev xs ys <= codev xs xs * codev ys ys.
Proof.
  intros Hlen. unfold codev.
  rewrite (codev_left _ _ xs ys Hlen), (codev_right _ _ ys xs Hlen).
  apply (cauchy_schwarz (fun p => fst p - Rmean xs) (fun p => snd p - Rmean ys)).
Qed.

Lemma ratio_in_unit c d : d <> 0 -> 0 <= d -> c * c <= d * d -> -1 <= c / d <= 1.
Proof.
  intros Hd0 Hd Hc. assert (Hpos : 0 < d) by lra.
  assert (Hq : c / d * d = c) by (now field).
  assert (Hlo : - d <= c) by nra. assert (Hhi : c <= d) by nra.
  split.
  - apply Rmult_le_reg_r with d; [exact Hpos |]. lra.
  - apply Rmult_le_reg_r with d; [exact Hpos |]. lra.
Qed.

Lemma pearson_range x y :
  pearson x y = NaN \/ exists r, pearson x y = Fin r /\ -1 <= r <= 1.
Proof.
  unfold pearson.
  set (obs := filter (fun p => isfinite (fst p) && isfinite (snd p)) (combine x y)).
  set (xs := map (fun p => real_of (fst p)) obs).
  set (ys := map (fun p => real_of (snd p)) obs).
  destruct (length obs <? 1)%nat; [now left |].
  destruct (Req_dec_T (sqrt (codev xs xs * codev ys ys)) 0) as [| Hd]; [now left |].
  right. eexists. split; [reflexivity |].
  assert (Hlen : length xs = length ys) by (subst xs ys; now rewrite !length_map).
  pose proof (codev_bound xs ys Hlen) as Hb.
  pose proof (codev_self_nonneg xs) as Hx. pose proof (codev_self_nonneg ys) as Hy.
  apply ratio_in_unit; [exact Hd | apply sqrt_pos |].
  rewrite sqrt_sqrt by nra. exact Hb.
Qed.

(** X9: every entry of the correlation matrix of a frame, whatever its
    values, is NaN or a number between -1 and 1. *)
Theorem corr_within_unit df i j :
  entry (corr df) i j = NaN
  \/ exists r, entry (corr df) i j = Fin r /\ -1 <= r <= 1.
Proof.
  destruct (Nat.lt_ge_cases i (length (columns df))) as [Hi | Hi];
    [| left; apply entry_corr_outside; now left].
  destruct (Nat.lt_ge_cases j (length (columns df))) as [Hj | Hj];
    [| left; apply entry_corr_outside; now right].
  rewrite entry_corr by assumption. unfold corr_entry.
  destruct (j <=? i)%nat; apply pearson_range.
Qed.

Lemma deviation_of_one a : codev [a] [a] = 0.
Proof. unfold codev, Rmean, Rsum. cbn. field. Qed.

Lemma pearson_short x y : (length x < 2)%nat -> pearson x y = NaN.
Proof.
  intros Hx. unfold pearson.
  set (obs := filter (fun p => isfinite (fst p) && isfinite (snd p)) (combine x y)).
  assert (Hobs : (length obs < 2)%nat).
  { subst obs. eapply Nat.le_lt_trans; [apply filter_length_le |].
    rewrite length_combine. lia. }
  destruct obs as [| o [| o' obs]]; [reflexivity | | simpl in Hobs; lia].
  cbn [length Nat.ltb Nat.leb map]. rewrite deviation_of_one, Rmult_0_l, sqrt_0.
  destruct (Req_dec_T 0 0); [reflexivity | lra].
Qed.

Lemma pearson_short_r x y : (length y < 2)%nat -> pearson x y = NaN.
Proof.
  intros Hy. unfold pearson.
  set (obs := filter (fun p => isfinite (fst p) && isfinite (snd p)) (combine x y)).
  assert (Hobs : (length obs < 2)%nat).
  { subst obs. eapply Nat.le_lt_trans; [apply filter_length_le |].
    rewrite length_combine. lia. }
  destruct obs as [| o [| o' obs]]; [reflexivity | | simpl in Hobs; lia].
  cbn [length Nat.ltb Nat.leb map]. rewrite deviation_of_one, Rmult_0_l, sqrt_0.
  destruct (Req_dec_T 0 0); [reflexivity | lra].
Qed.

Lemma sort_values_desc_all_missing (kind : sort_kind snd) (rows : Labelled) :
  Forall (fun r => snd r = NaN) rows -> sort_values_desc kind rows = rows.
Proof.
  intros Hall. unfold sort_values_desc.
  assert (H1 : filter (fun r => notna (snd r)) rows = []).
  { induction Hall as [| r rows Hr Hall IH]; [reflexivity |].
    cbn [filter]. rewrite Hr. exact IH. }
  assert (H2 : filter (fun r : string * fl => isna (snd r)) rows = rows).
  { clear H1. induction Hall as [| r rows Hr Hall IH]; [reflexivity |].
    cbn [filter]. rewrite Hr. cbn [isna]. f_equal. exact IH. }
  rewrite H1, H2. cbn [rev]. now rewrite argsort_nil.
Qed.

(** X10: on a frame of returns whose columns have fewer than two rows (a
    period of one day), every entry of the correlation matrix is NaN and
    [df_annualized_volatility] gives NaN for every ticker, the tickers in
    the order of their columns, whatever sort numpy runs. *)
Theorem single_row_table_has_no_statistics kind df :
  Forall (fun c => (length (snd c) < 2)%nat) (columns df) ->
  (forall i j, entry (corr df) i j = NaN)
  /\ df_annualized_volatility kind df = map (fun c => (fst c, NaN)) (columns df).
Proof.
  intros Hshort. split.
  - intros i j.
    destruct (Nat.lt_ge_cases i (length (columns df))) as [Hi | Hi];
      [| apply entry_corr_outside; now left].
    destruct (Nat.lt_ge_cases j (length (columns df))) as [Hj | Hj];
      [| apply entry_corr_outside; now right].
    rewrite entry_corr by assumption. unfold corr_entry.
    rewrite Forall_forall in Hshort.
    assert (Hci : (length (snd (nth i (columns df) (EmptyString, []))) < 2)%nat)
      by (apply Hshort, nth_In, Hi).
    destruct (j <=? i)%nat; [now apply pearson_short | now apply pearson_short_r].
  - unfold df_annualized_volatility.
    assert (Hrows : map_values round2
              (map_values (fun v => fmul (fmul v (Fin (Rpower 252 0.5))) (Fin 100))
                 (reduce_columns std df))
            = map (fun c => (fst c, NaN)) (columns df)).
    { unfold map_values, reduce_columns. rewrite !map_map.
      apply map_ext_in. intros c Hc. cbn [fst snd].
      rewrite Forall_forall in Hshort. now rewrite std_short by (now apply Hshort). }
    rewrite Hrows. apply sort_values_desc_all_missing.
    apply Forall_forall. intros r Hr. apply in_map_iff in Hr.
    now destruct Hr as [c [<- _]].
Qed.

Lemma single_row_table_has_no_statistics_witness :
  (forall i j,
     entry (corr (mkDataFrame [1%Z] [("PETR4.SA", [Fin 0]); ("VALE3.SA", [Fin 0])])) i j
     = NaN)
  /\ df_annualized_volatility (stable snd)
       (mkDataFrame [1%Z] [("PETR4.SA", [Fin 0]); ("VALE3.SA", [Fin 0])])
     = [("PETR4.SA", NaN); ("VALE3.SA", NaN)].
Proof.
  apply (single_row_table_has_no_statistics (stable snd)
           (mkDataFrame [1%Z] [("PETR4.SA", [Fin 0]); ("VALE3.SA", [Fin 0])])).
  repeat constructor.
Defined.

(* ================================================================== *)
(** ** The paragraphs of the summary *)

Lemma split2_step c1 c2 piece a b s :
  split2 c1 c2 piece (a :: b :: s)
  = if ((a =? c1) && (b =? c2))%N then rev piece :: split2 c1 c2 [] s
    else split2 c1 c2 (a :: piece) (b :: s).
Proof. reflexivity. Qed.

Lemma split2_nonempty c1 c2 s : forall piece, split2 c1 c2 piece s <> [].
Proof.
  induction s as [| a s IH]; intros piece; [discriminate |].
  destruct s as [| b s]; [discriminate |].
  rewrite split2_step. destruct ((a =? c1) && (b =? c2))%N; [discriminate | apply IH].
Qed.

Lemma join_cons sep x pieces :
  pieces <> [] -> join sep (x :: pieces) = (x ++ sep ++ join sep pieces)%list.
Proof. intros H. destruct pieces; [congruence | reflexivity]. Qed.

Lemma split2_join c1 c2 n : forall s piece,
  (length s <= n)%nat ->
  join [c1; c2] (split2 c1 c2 piece s) = (rev piece ++ s)%list.
Proof.
  induction n as [| n IH]; intros s piece Hn.
  - destruct s; [cbn; now rewrite app_nil_r | simpl in Hn; lia].
  - destruct s as [| a [| b s]].
    + cbn. now rewrite app_nil_r.
    + reflexivity.
    + rewrite split2_step. destruct ((a =? c1) && (b =? c2))%N eqn:E.
      * apply andb_prop in E. destruct E as [Ea Eb].
        apply N.eqb_eq in Ea, Eb. subst a b.
        rewrite join_cons by apply split2_nonempty.
        rewrite IH by (simpl in Hn |- *; lia). reflexivity.
      * rewrite IH by (simpl in Hn |- *; lia).
        cbn [rev]. now rewrite <- app_assoc.
Qed.

(** X12: the pieces into which the popover cuts the summary at ['. '],
    joined again with ['. '], are the summary: the cut loses no text. *)
Theorem summary_split_joins_back business_summary :
  join [46; 32]%N (split 46 32 business_summary) = business_summary.
Proof. unfold split. now rewrite (split2_join _ _ (length business_summary)). Qed.

Lemma last_nonempty_tail {A} (x : A) l d : l <> [] -> last (x :: l) d = last l d.
Proof. intros H. destruct l; [congruence | reflexivity]. Qed.

Lemma split2_last c1 c2 n : forall s piece,
  (length s <= n)%nat -> s <> [] -> last s 0%N <> c2 ->
  last (last (split2 c1 c2 piece s) []) 0%N = last s 0%N.
Proof.
  induction n as [| n IH]; intros s piece Hn Hne Hlast.
  - destruct s; [congruence | simpl in Hn; lia].
  - destruct s as [| a [| b s]]; [congruence | |].
    + change (split2 c1 c2 piece [a]) with [rev (a :: piece)].
      change (last [rev (a :: piece)] []) with (rev piece ++ [a])%list.
      now rewrite last_last.
    + rewrite split2_step. destruct ((a =? c1) && (b =? c2))%N eqn:E.
      * apply andb_prop in E. destruct E as [_ Eb]. apply N.eqb_eq in Eb. subst b.
        destruct s as [| c s]; [now cbn in Hlast |].
        rewrite last_nonempty_tail by apply split2_nonempty.
        rewrite IH; [reflexivity | simpl in Hn |- *; lia | discriminate | exact Hlast].
      * rewrite IH; [reflexivity | simpl in Hn |- *; lia | discriminate | exact Hlast].
Qed.

Lemma lstrip_keeps_last s :
  s <> [] -> isspace (last s 0%N) = false ->
  lstrip s <> [] /\ last (lstrip s) 0%N = last s 0%N.
Proof.
  induction s as [| c s IH]; intros Hne Hlast; [congruence |].
  cbn [lstrip]. destruct (isspace c) eqn:Ec; [| split; [discriminate | reflexivity]].
  destruct s as [| d s]; [cbn in Hlast; congruence |].
  apply IH; [discriminate | exact Hlast].
Qed.

Lemma rstrip_keeps s :
  s <> [] -> isspace (last s 0%N) = false -> rstrip s = s.
Proof.
  intros Hne Hlast. unfold rstrip.
  rewrite (app_removelast_last 0%N Hne) at 1.
  rewrite rev_app_distr. cbn [rev app lstrip]. rewrite Hlast.
  change (last s 0%N :: rev (removelast s))
    with (rev [last s 0%N] ++ rev (removelast s))%list.
  rewrite <- rev_app_distr, rev_involutive.
  symmetry. now apply app_removelast_last.
Qed.

Lemma strip_keeps_last s :
  s <> [] -> isspace (last s 0%N) = false ->
  strip s <> [] /\ last (strip s) 0%N = last s 0%N.
Proof.
  intros Hne Hlast. destruct (lstrip_keeps_last s Hne Hlast) as [Hl1 Hl2].
  unfold strip. rewrite rstrip_keeps by (rewrite ?Hl2; assumption).
  now split.
Qed.

(** X13: when the summary ends with a full stop, the last line the
    popover writes ends with two of them. *)
Theorem summary_last_line_doubles_stop business_summary :
  ends_with [46%N] business_summary ->
  ends_with [46; 46]%N (last (about_paragraphs business_summary) []).
Proof.
  intros [before ->]. unfold about_paragraphs, split.
  set (pieces := split2 46 32 [] (before ++ [46%N])%list).
  assert (Hp : pieces <> []) by apply split2_nonempty.
  assert (Hlast : last (last pieces []) 0%N = 46%N).
  { subst pieces.
    rewrite (split2_last 46 32 (length (before ++ [46%N])%list));
      rewrite ?last_last; try reflexivity; try discriminate.
    destruct before; discriminate. }
  rewrite (app_removelast_last [] Hp), map_app. cbn [map]. rewrite last_last.
  assert (Hne : last pieces [] <> []).
  { intros E. rewrite E in Hlast. discriminate Hlast. }
  destruct (strip_keeps_last (last pieces []) Hne) as [Hs1 Hs2];
    [now rewrite Hlast |].
  set (line := strip (last pieces [])) in *.
  assert (Hline : line = (removelast line ++ [46%N])%list).
  { rewrite <- Hlast, <- Hs2. now apply app_removelast_last. }
  exists (removelast line).
  transitivity ((removelast line ++ [46%N]) ++ [46%N])%list.
  - f_equal. exact Hline.
  - now rewrite <- app_assoc.
Qed.

Lemma summary_last_line_doubles_stop_witness :
  ends_with [46; 46]%N
    (last (about_paragraphs (of_string "Oil and gas. Founded in 1953.")) []).
Proof.
  apply (summary_last_line_doubles_stop (of_string "Oil and gas. Founded in 1953.")).
  exists (of_string "Oil and gas. Founded in 1953"). reflexivity.
Defined.

Example about_paragraphs_of_summary :
  about_paragraphs (of_string "Oil and gas.  Founded in 1953.")
  = [of_string "Oil and gas."; of_string "Founded in 1953.."]
  /\ about_paragraphs [] = [of_string "."].
Proof. split; reflexivity. Qed.

(* ================================================================== *)
(** ** The quote of the day *)

Lemma py_div_ok a b q : py_div a b = Ok q -> nonzero b /\ q = fdiv a b.
Proof.
  unfold py_div, nonzero. destruct b as [| | | y]; intros H;
    try (injection H as <-; split; [intros y' E; discriminate E | reflexivity]).
  destruct (Req_dec_T y 0); [discriminate |]. injection H as <-.
  split; [| reflexivity]. intros y' E. injection E as <-. assumption.
Qed.

Lemma py_div_nonzero a b : nonzero b -> py_div a b = Ok (fdiv a b).
Proof.
  unfold py_div, nonzero. intros H. destruct b as [| | | y]; try reflexivity.
  destruct (Req_dec_T y 0) as [E | ]; [| reflexivity].
  exfalso. now apply (H y).
Qed.

Lemma py_round2_ok v x : py_round2 v = Ok x -> exists a, v = PyFloat a /\ x = round2 a.
Proof.
  destruct v; cbn; intros H; try discriminate. injection H as <-. eauto.
Qed.

(** One step of a run that ends well. *)
Ltac ok_step H :=
  match type of H with
  | and_then ?r _ = Ok _ =>
      let E := fresh "E" in
      destruct r eqn:E; cbn [and_then] in H; [| discriminate H]
  end.

Section Quote.
Variable fast_info : string -> dict.
Variable info : string -> dict.
Variable stock : string.

Lemma load_ticker_info_today_ok ti :
  load_ticker_info_today fast_info info stock = Ok ti ->
  exists a p o h l,
    dict_get (fast_info stock) "lastPrice" = Ok (PyFloat a)
    /\ dict_get (info stock) "previousClose" = Ok (PyFloat p)
    /\ nonzero (round2 p)
    /\ dict_get (info stock) "open" = Ok (PyFloat o)
    /\ dict_get (info stock) "dayHigh" = Ok (PyFloat h)
    /\ dict_get (info stock) "dayLow" = Ok (PyFloat l)
    /\ dict_get (info stock) "longName" = Ok (Long_Name ti)
    /\ dict_get (info stock) "longBusinessSummary" = Ok (Summary ti)
    /\ dict_get (info stock) "website" = Ok (Web_Site ti)
    /\ dict_get (info stock) "sector" = Ok (Sector ti)
    /\ dict_get (info stock) "industry" = Ok (Industry ti)
    /\ Last_Price ti = round2 a
    /\ Previous_Close ti = round2 p
    /\ Pct_Today ti = fmul (fsub (fdiv (round2 a) (round2 p)) (Fin 1)) (Fin 100)
    /\ Open_Price ti = round2 o
    /\ Day_High ti = round2 h
    /\ Day_Low ti = round2 l.
Proof.
  unfold load_ticker_info_today. intros H.
  repeat ok_step H. injection H as <-.
  repeat match goal with
    | E : py_round2 _ = Ok _ |- _ =>
        apply py_round2_ok in E; destruct E as (? & -> & ->)
    end.
  match goal with
  | E : py_div _ _ = Ok _ |- _ => apply py_div_ok in E; destruct E as [Hnz ->]
  end.
  do 5 eexists. cbn. repeat split; eassumption || reflexivity.
Qed.

Lemma load_ticker_info_today_complete :
  complete_quote (fast_info stock) (info stock) ->
  exists ti, load_ticker_info_today fast_info info stock = Ok ti.
Proof.
  intros [(a & p & o & h & l & Ha & Hp & Hnz & Ho & Hh & Hl) Htexts].
  repeat match goal with
    | H : Forall _ (_ :: _) |- _ => inversion H; subst; clear H
    end.
  repeat match goal with
    | H : exists v, dict_get _ _ = Ok v |- _ => destruct H as [? H]
    end.
  unfold load_ticker_info_today.
  rewrite Ha. cbn [and_then py_round2]. rewrite Hp. cbn [and_then py_round2].
  rewrite (py_div_nonzero _ _ Hnz). cbn [and_then].
  rewrite Ho. cbn [and_then py_round2]. rewrite Hh. cbn [and_then py_round2].
  rewrite Hl. cbn [and_then py_round2].
  repeat match goal with
    | H : dict_get _ _ = Ok _ |- _ => rewrite H; cbn [and_then]; clear H
    end.
  eexists. reflexivity.
Qed.
End Quote.

(** X14: [load_ticker_info_today] returns its dictionary exactly when
    the five prices of the quote are numbers, the previous close does not
    round to zero, and the five texts are present. *)
Theorem load_ticker_info_today_succeeds fast_info info stock :
  (exists ti, load_ticker_info_today fast_info info stock = Ok ti)
  <-> complete_quote (fast_info stock) (info stock).
Proof.
  split; [| apply load_ticker_info_today_complete].
  intros [ti H]. apply load_ticker_info_today_ok in H.
  destruct H as (a & p & o & h & l & Ha & Hp & Hnz & Ho & Hh & Hl
                 & H1 & H2 & H3 & H4 & H5 & _).
  split; [exists a, p, o, h, l; tauto |].
  repeat constructor; eauto.
Qed.

(** X15: a previous close of less than half a cent rounds to zero, and
    the division by it raises [ZeroDivisionError], before any other field
    of the quote is read. *)
Theorem load_ticker_info_today_zero_division fast_info info stock a p :
  dict_get (fast_info stock) "lastPrice" = Ok (PyFloat a) ->
  dict_get (info stock) "previousClose" = Ok (PyFloat (Fin p)) ->
  - 0.005 < p < 0.005 ->
  load_ticker_info_today fast_info info stock = Raise ZeroDivisionError.
Proof.
  intros Ha Hp Hsmall. unfold load_ticker_info_today.
  rewrite Ha. cbn [and_then py_round2]. rewrite Hp. cbn [and_then py_round2].
  rewrite round2_small by exact Hsmall. unfold py_div.
  destruct (Req_dec_T 0 0); [reflexivity | lra].
Qed.

Lemma load_ticker_info_today_zero_division_witness :
  load_ticker_info_today (fun _ => example_fast_info) (fun _ => penny_info) "PETR4.SA"
  = Raise ZeroDivisionError.
Proof.
  apply (load_ticker_info_today_zero_division _ _ "PETR4.SA" (Fin 38.127) 0.004).
  - reflexivity.
  - reflexivity.
  - lra.
Defined.

(** X16: the change of the day is computed from the two prices as they
    are rounded to two decimals; a last price and a previous close that
    round to the same number give a change of 0. *)
Theorem load_ticker_info_today_change fast_info info stock ti :
  load_ticker_info_today fast_info info stock = Ok ti ->
  Pct_Today ti
  = fmul (fsub (fdiv (Last_Price ti) (Previous_Close ti)) (Fin 1)) (Fin 100)
  /\ (forall q, Last_Price ti = Fin q -> Previous_Close ti = Fin q ->
        Pct_Today ti = Fin 0).
Proof.
  intros H. apply load_ticker_info_today_ok in H.
  destruct H as (a & p & o & h & l & _ & _ & Hnz & _ & _ & _
                 & _ & _ & _ & _ & _ & HL & HP & Hpct & _).
  rewrite HL, HP, Hpct. split; [reflexivity |].
  intros q Hq1 Hq2. rewrite Hq1, Hq2.
  assert (Hq : q <> 0) by (now apply Hnz).
  cbn. destruct (Req_dec_T q 0); [contradiction |]. cbn. apply f_equal. now field.
Qed.

Lemma example_quote_loads :
  load_ticker_info_today (fun _ => example_fast_info) (fun _ => example_info) "PETR4.SA"
  = Ok {| Last_Price := round2 (Fin 38.127);
          Previous_Close := round2 (Fin 37.5);
          Pct_Today := fmul (fsub (fdiv (round2 (Fin 38.127)) (round2 (Fin 37.5)))
                               (Fin 1)) (Fin 100);
          Open_Price := round2 (Fin 37.6);
          Day_High := round2 (Fin 38.4);
          Day_Low := round2 (Fin 37.4);
          Long_Name := PyStr (of_string "Petroleo Brasileiro S.A. - Petrobras");
          Summary := PyStr (of_string "Oil and gas. Founded in 1953.");
          Web_Site := PyStr (of_string "https://petrobras.com.br");
          Sector := PyStr (of_string "Energy");
          Industry := PyStr (of_string "Oil & Gas Integrated") |}.
Proof.
  unfold load_ticker_info_today. cbn [example_fast_info example_info dict_get
    String.eqb Ascii.eqb Bool.eqb and_then py_round2].
  assert (Hp : round2 (Fin 37.5) = Fin 37.5).
  { cbn [round2]. unfold rint.
    rewrite <- (Int_part_spec (37.5 * 100) 3750) by (simpl; lra).
    simpl. rdec; apply f_equal; lra. }
  unfold py_div. rewrite Hp.
  destruct (Req_dec_T 37.5 0); [lra | reflexivity].
Qed.

Lemma load_ticker_info_today_change_witness :
  let ti := {| Last_Price := round2 (Fin 38.127);
               Previous_Close := round2 (Fin 37.5);
               Pct_Today := fmul (fsub (fdiv (round2 (Fin 38.127)) (round2 (Fin 37.5)))
                                    (Fin 1)) (Fin 100);
               Open_Price := round2 (Fin 37.6);
               Day_High := round2 (Fin 38.4);
               Day_Low := round2 (Fin 37.4);
               Long_Name := PyStr (of_string "Petroleo Brasileiro S.A. - Petrobras");
               Summary := PyStr (of_string "Oil and gas. Founded in 1953.");
               Web_Site := PyStr (of_string "https://petrobras.com.br");
               Sector := PyStr (of_string "Energy");
               Industry := PyStr (of_string "Oil & Gas Integrated") |} in
  Pct_Today ti
  = fmul (fsub (fdiv (Last_Price ti) (Previous_Close ti)) (Fin 1)) (Fin 100)
  /\ (forall q, Last_Price ti = Fin q -> Previous_Close ti = Fin q ->
        Pct_Today ti = Fin 0).
Proof.
  apply (load_ticker_info_today_change (fun _ => example_fast_info)
           (fun _ => example_info) "PETR4.SA").
  apply example_quote_loads.
Defined.

(* ================================================================== *)
(** ** The loaded history *)

Lemma rint_of_integer n : rint (IZR n) = n.
Proof.
  unfold rint. rewrite <- (Int_part_spec (IZR n) n) by lra.
  destruct (Rlt_dec (IZR n - IZR n) (1 / 2)); [reflexivity | lra].
Qed.

Lemma round2_idempotent a : round2 (round2 a) = round2 a.
Proof.
  destruct a as [| | | x]; try reflexivity. cbn [round2].
  replace (IZR (rint (x * 100)) / 100 * 100) with (IZR (rint (x * 100))) by field.
  now rewrite rint_of_integer.
Qed.

Lemma lookup_mapped (f : Series -> Series) name cols :
  lookup_column name (map (fun c => (fst c, f (snd c))) cols)
  = option_map f (lookup_column name cols).
Proof.
  induction cols as [| [n s] cols IH]; [reflexivity |].
  cbn. destruct (String.eqb n name); [reflexivity | exact IH].
Qed.

(** X17: the table [load_ticker_history] returns has the columns of the
    fetched one, with as many rows, and the day of each bar as its date;
    every number of it is rounded to two decimals already, so that
    rounding it again changes nothing. *)
Theorem load_ticker_history_rounded history stock period df_stock :
  load_ticker_history history stock period = Some df_stock ->
  exists fetched,
    history stock period = Some fetched
    /\ index df_stock = map dt_date (index fetched)
    /\ map (fun c => (fst c, length (snd c))) (columns df_stock)
       = map (fun c => (fst c, length (snd c))) (columns fetched)
    /\ forall name column v,
         In (name, column) (columns df_stock) -> In v column -> round2 v = v.
Proof.
  unfold load_ticker_history. intros H.
  destruct (history stock period) as [raw |]; [| discriminate].
  injection H as <-. exists raw. unfold apply_columns, round. cbn [index columns].
  repeat split.
  - rewrite map_map. apply map_ext. intros c. cbn [fst snd]. now rewrite length_map.
  - intros name column v Hc Hv. apply in_map_iff in Hc.
    destruct Hc as [c [E _]]. injection E as _ <-.
    apply in_map_iff in Hv. destruct Hv as [x [<- _]]. apply round2_idempotent.
Qed.

Lemma load_ticker_history_rounded_witness :
  exists fetched,
    example_history "PETR4.SA" "1mo" = Some fetched
    /\ index example_loaded = map dt_date (index fetched)
    /\ map (fun c => (fst c, length (snd c))) (columns example_loaded)
       = map (fun c => (fst c, length (snd c))) (columns fetched)
    /\ forall name column v,
         In (name, column) (columns example_loaded) -> In v column -> round2 v = v.
Proof.
  apply (load_ticker_history_rounded example_history "PETR4.SA" "1mo").
  reflexivity.
Defined.

Lemma filter_notna_finite xs : filter notna (map Fin xs) = map Fin xs.
Proof. induction xs as [| x xs IH]; [reflexivity |]. cbn. now rewrite IH. Qed.

Lemma round_finite xs :
  round (map Fin xs) = map Fin (map (fun x => IZR (rint (x * 100)) / 100) xs).
Proof. unfold round. now rewrite !map_map. Qed.

Lemma fold_max_rounded l : forall m,
  fold_left (fun m y => if fltb m y then y else m)
    (map Fin (map (fun x => IZR (rint (x * 100)) / 100) l))
    (Fin (IZR (rint (m * 100)) / 100))
  = round2 (fold_left (fun m y => if fltb m y then y else m) (map Fin l) (Fin m)).
Proof.
  induction l as [| y l IH]; intros m; [reflexivity |].
  cbn [map fold_left fltb].
  destruct (Rlt_dec (IZR (rint (m * 100)) / 100) (IZR (rint (y * 100)) / 100)) as [Hr | Hr],
           (Rlt_dec m y) as [Hm | Hm]; try apply IH.
  - pose proof (round2_le y m ltac:(lra)). lra.
  - pose proof (round2_le m y ltac:(lra)) as Hle.
    replace (IZR (rint (m * 100)) / 100) with (IZR (rint (y * 100)) / 100) by lra.
    apply IH.
Qed.

Lemma fold_min_rounded l : forall m,
  fold_left (fun m y => if fltb y m then y else m)
    (map Fin (map (fun x => IZR (rint (x * 100)) / 100) l))
    (Fin (IZR (rint (m * 100)) / 100))
  = round2 (fold_left (fun m y => if fltb y m then y else m) (map Fin l) (Fin m)).
Proof.
  induction l as [| y l IH]; intros m; [reflexivity |].
  cbn [map fold_left fltb].
  destruct (Rlt_dec (IZR (rint (y * 100)) / 100) (IZR (rint (m * 100)) / 100)) as [Hr | Hr],
           (Rlt_dec y m) as [Hm | Hm]; try apply IH.
  - pose proof (round2_le m y ltac:(lra)). lra.
  - pose proof (round2_le y m ltac:(lra)) as Hle.
    replace (IZR (rint (m * 100)) / 100) with (IZR (rint (y * 100)) / 100) by lra.
    apply IH.
Qed.

Lemma max_rounded xs : max (round (map Fin xs)) = round2 (max (map Fin xs)).
Proof.
  rewrite round_finite. unfold max. rewrite !filter_notna_finite.
  destruct xs as [| x xs]; [reflexivity |]. cbn [map]. apply fold_max_rounded.
Qed.

Lemma min_rounded xs : min (round (map Fin xs)) = round2 (min (map Fin xs)).
Proof.
  rewrite round_finite. unfold min. rewrite !filter_notna_finite.
  destruct xs as [| x xs]; [reflexivity |]. cbn [map]. apply fold_min_rounded.
Qed.

(** X18: on the table [load_ticker_history] returns, the high price of
    [statistics_historical_data] is the highest fetched High rounded to two
    decimals, and the low price the lowest fetched Low rounded: rounding
    the table first does not change which bar sets them. *)
Theorem loaded_extremes_are_rounded_extremes fm history stock period
    fetched close hs ls :
  history stock period = Some fetched ->
  getitem fetched "Close" = Some close ->
  getitem fetched "High" = Some (map Fin hs) ->
  getitem fetched "Low" = Some (map Fin ls) ->
  exists df_stock stats,
    load_ticker_history history stock period = Some df_stock
    /\ statistics_historical_data fm df_stock = Some stats
    /\ High_Price stats = round2 (max (map Fin hs))
    /\ Low_Price stats = round2 (min (map Fin ls)).
Proof.
  intros Hh HC HH HL. unfold load_ticker_history. rewrite Hh.
  eexists. eexists. split; [reflexivity |].
  unfold statistics_historical_data, getitem, apply_columns in *. cbn [columns].
  rewrite !lookup_mapped, HC, HH, HL. cbn [option_map].
  split; [reflexivity |]. cbn [High_Price Low_Price].
  split; [apply max_rounded | apply min_rounded].
Qed.

Lemma loaded_extremes_are_rounded_extremes_witness :
  exists df_stock stats,
    load_ticker_history example_history "PETR4.SA" "1mo" = Some df_stock
    /\ statistics_historical_data pad df_stock = Some stats
    /\ High_Price stats = round2 (max (map Fin [101.126; 111.004; 110]))
    /\ Low_Price stats = round2 (min (map Fin [99.5; 103; 98.337])).
Proof.
  apply (loaded_extremes_are_rounded_extremes pad example_history "PETR4.SA" "1mo"
           example_fetched [Fin 100; Fin 110.5; Fin 99.25]);
    reflexivity.
Defined.

(* ================================================================== *)
(** ** The page as a whole *)

(** Runs the page up to its next load. *)
Ltac run_page H :=
  cbn [next show loading raised done show_all returned fst snd app] in H.

(** No event of the list is an event of the comparison block. *)
Ltac no_analysis H :=
  cbn [In] in H; repeat (destruct H as [H | H]; [discriminate H |]); contradiction.

(** X19: [main] has no handler: an event of the comparison block occurs
    only in a run in which the history of the selected stock is loaded, its
    statistics are computed, its quote is loaded and the summary of the
    quote is a string; if one of them fails the run ends there, the
    comparison block not begun. *)
Theorem comparison_needs_the_panel kind fm history fast_info info history_close
    period stock stocks_period stocks_list e :
  In (Analysis e)
     (fst (page kind fm history fast_info info history_close
             period stock stocks_period stocks_list)) ->
  exists df_stock stats ticker_info business_summary,
    load_ticker_history history stock period = Some df_stock
    /\ statistics_historical_data fm df_stock = Some stats
    /\ load_ticker_info_today fast_info info stock = Ok ticker_info
    /\ Summary ticker_info = PyStr business_summary.
Proof.
  intros Hin. unfold page, panel in Hin. run_page Hin.
  destruct (load_ticker_history history stock period) as [df |] eqn:E1;
    run_page Hin; [| no_analysis Hin].
  destruct (statistics_historical_data fm df) as [stats |] eqn:E2;
    run_page Hin; [| no_analysis Hin].
  destruct (load_ticker_info_today fast_info info stock) as [ti | err] eqn:E3;
    run_page Hin; [| no_analysis Hin].
  destruct (Summary ti) as [x | s |] eqn:E4;
    run_page Hin; [no_analysis Hin | | no_analysis Hin].
  exists df, stats, ti, s. auto.
Qed.

Lemma page_after_panel kind fm history fast_info info history_close
    period stock stocks_period stocks_list df stats ti s :
  load_ticker_history history stock period = Some df ->
  statistics_historical_data fm df = Some stats ->
  load_ticker_info_today fast_info info stock = Ok ti ->
  Summary ti = PyStr s ->
  page kind fm history fast_info info history_close period stock stocks_period stocks_list
  = ((panel_widgets stock df stats ti s ++ [SectionTitle; AnalysisSelectors]
      ++ map Analysis (fst (main kind fm history_close stocks_period stocks_list)))%list,
     snd (main kind fm history_close stocks_period stocks_list)).
Proof.
  intros E1 E2 E3 E4. unfold page, panel, analyses, panel_widgets.
  cbn [next show loading fst snd app]. rewrite E1.
  cbn [next show loading fst snd app]. rewrite E2.
  cbn [next show loading fst snd app]. rewrite E3.
  cbn [next show loading returned fst snd app]. rewrite E4.
  cbn [next show show_all done loading fst snd app].
  destruct (main kind fm history_close stocks_period stocks_list) as [events r].
  cbn [fst snd]. rewrite <- !app_assoc. reflexivity.
Qed.

Lemma bind_events {A B} (m : Script A) (f : A -> Script B) :
  fst (bind m f)
  = (fst m ++ match snd m with Some a => fst (f a) | None => [] end)%list.
Proof.
  destruct m as [l [a |]]; cbn [bind fst snd].
  - now destruct (f a).
  - now rewrite app_nil_r.
Qed.

Lemma main_calls_df_returns kind fm history_close stocks_period stocks_list df :
  df_stocks_close history_close stocks_period stocks_list = Some df ->
  In (Call "df_returns") (fst (main kind fm history_close stocks_period stocks_list)).
Proof.
  intros H. unfold main. rewrite H.
  rewrite bind_events. cbn [call_raising fst snd].
  rewrite bind_events. cbn [call fst snd app In]. tauto.
Qed.

Lemma example_statistics :
  exists stats, statistics_historical_data pad example_loaded = Some stats.
Proof.
  unfold statistics_historical_data, example_loaded, getitem.
  cbn [columns apply_columns example_fetched map fst snd lookup_column
       String.eqb Ascii.eqb Bool.eqb].
  eexists. reflexivity.
Qed.

Lemma example_page_reaches_comparison :
  In (Analysis (Call "df_returns"))
     (fst (page (stable snd) pad example_history
             (fun _ => example_fast_info) (fun _ => example_info)
             example_fetch "1mo" "PETR4.SA" "1mo" ["PETR4.SA"; "VALE3.SA"])).
Proof.
  destruct example_statistics as [stats Hs].
  rewrite (page_after_panel (stable snd) pad example_history _ _ example_fetch
             "1mo" "PETR4.SA"
             "1mo" ["PETR4.SA"; "VALE3.SA"] example_loaded stats _ _
             eq_refl Hs example_quote_loads eq_refl).
  cbn [fst]. apply in_or_app. right. apply in_or_app. right.
  apply in_map.
  apply (main_calls_df_returns (stable snd) pad example_fetch "1mo" _ example_close_table).
  reflexivity.
Qed.

Lemma comparison_needs_the_panel_witness :
  exists df_stock stats ticker_info business_summary,
    load_ticker_history example_history "PETR4.SA" "1mo" = Some df_stock
    /\ statistics_historical_data pad df_stock = Some stats
    /\ load_ticker_info_today (fun _ => example_fast_info) (fun _ => example_info)
         "PETR4.SA" = Ok ticker_info
    /\ Summary ticker_info = PyStr business_summary.
Proof.
  apply (comparison_needs_the_panel (stable snd) pad example_history
           (fun _ => example_fast_info)
           (fun _ => example_info) example_fetch "1mo" "PETR4.SA" "1mo"
           ["PETR4.SA"; "VALE3.SA"] (Call "df_returns")).
  apply example_page_reaches_comparison.
Defined.

(** X20: with fewer than two tickers selected for the comparison, the
    panel of the selected stock is still shown in full; the page then
    runs the whole comparison block up to its warning and ends there. *)
Theorem page_below_two_tickers kind fm history fast_info info history_close
    period stock stocks_period stocks_list df_stock stats ticker_info
    business_summary df_close_prices :
  load_ticker_history history stock period = Some df_stock ->
  statistics_historical_data fm df_stock = Some stats ->
  load_ticker_info_today fast_info info stock = Ok ticker_info ->
  Summary ticker_info = PyStr business_summary ->
  (length stocks_list < 2)%nat ->
  df_stocks_close history_close stocks_period stocks_list = Some df_close_prices ->
  page kind fm history fast_info info history_close period stock stocks_period stocks_list
  = ((panel_widgets stock df_stock stats ticker_info business_summary
      ++ [SectionTitle; AnalysisSelectors]
      ++ map Analysis computed_then_stopped)%list, None).
Proof.
  intros E1 E2 E3 E4 Hlen Hclose.
  rewrite (page_after_panel kind _ _ _ _ _ _ _ _ _ _ _ _ _ E1 E2 E3 E4).
  now rewrite (main_stops_below_two kind fm _ _ _ df_close_prices Hlen Hclose).
Qed.

Lemma page_below_two_tickers_witness :
  exists stats ticker_info business_summary,
    page (stable snd) pad example_history
      (fun _ => example_fast_info) (fun _ => example_info)
      example_fetch "1mo" "PETR4.SA" "1mo" ["PETR4.SA"]
    = ((panel_widgets "PETR4.SA" example_loaded stats ticker_info business_summary
        ++ [SectionTitle; AnalysisSelectors]
        ++ map Analysis computed_then_stopped)%list, None).
Proof.
  destruct example_statistics as [stats Hs].
  exists stats. eexists. eexists.
  apply (page_below_two_tickers (stable snd) pad example_history _ _ example_fetch
           "1mo" "PETR4.SA"
           "1mo" ["PETR4.SA"] example_loaded stats _ _
           (setitem empty_frame "PETR4.SA" [(1, Fin 10); (2, Fin 11); (3, Fin 12)]%Z)
           eq_refl Hs example_quote_loads eq_refl).
  - simpl. lia.
  - reflexivity.
Defined.

Lemma main_raised kind fm history_close stocks_period stocks_list :
  df_stocks_close history_close stocks_period stocks_list = None ->
  main kind fm history_close stocks_period stocks_list = ([Call "df_stocks_close"], None).
Proof. intros H. unfold main. now rewrite H. Qed.

Lemma main_draws_from_two kind fm history_close stocks_period stocks_list df :
  (2 <= length stocks_list)%nat ->
  df_stocks_close history_close stocks_period stocks_list = Some df ->
  main kind fm history_close stocks_period stocks_list
  = ([Call "df_stocks_close"; Call "df_returns"; Call "df_stocks_returns_period";
      Call "df_stocks_returns_ranking"; Call "corr";
      Call "df_annualized_volatility"; Call "df_coefficient_variation";
      LineChart (df_stocks_returns_period (df_returns fm df));
      Heatmap (corr (df_returns fm df));
      BarChart "Cumulative Return" (df_stocks_returns_ranking kind (df_returns fm df));
      BarChart "Annualized Volatility" (df_annualized_volatility kind (df_returns fm df));
      BarChart "Coefficient Variation" (df_coefficient_variation kind df)], Some tt).
Proof.
  intros Hlen H. unfold main. rewrite H.
  destruct stocks_list as [| t [| t' l]]; simpl in Hlen; try lia. reflexivity.
Qed.

(** X21: the comparison block draws a chart exactly when at least two
    tickers are selected and the closes of all of them are fetched. *)
Theorem main_draws_exactly_when kind fm history_close stocks_period stocks_list :
  existsb is_render (fst (main kind fm history_close stocks_period stocks_list)) = true
  <-> (2 <= length stocks_list)%nat
      /\ exists df, df_stocks_close history_close stocks_period stocks_list = Some df.
Proof.
  destruct (df_stocks_close history_close stocks_period stocks_list) as [df |] eqn:E.
  - destruct (Nat.lt_ge_cases (length stocks_list) 2) as [Hlt | Hge].
    + rewrite (main_stops_below_two kind fm _ _ _ df Hlt E). cbn. split.
      * discriminate.
      * intros [Hge _]. lia.
    + rewrite (main_draws_from_two kind fm _ _ _ df Hge E). cbn. split; eauto.
  - rewrite (main_raised kind fm _ _ _ E). cbn. split.
    + discriminate.
    + intros [_ [df H]]. discriminate H.
Qed.
